(** * The label normaliser, the extractors and the template filler of
      [main.py], embedded in Rocq.

    Python strings are sequences of Unicode code points: a [str] is a
    [list N].  Dictionaries read only through [get]/[in] are [gmap]s;
    the mapping handed to the filler is iterated in insertion order
    and therefore an association list. *)

From Stdlib Require Import NArith ZArith Ascii String DecimalString.
From stdpp Require Import base option list gmap.

Local Open Scope N_scope.

Abbreviation str := (list N).

(** ** Literals: UTF-8 source text to code points *)

Fixpoint utf8 (bs : list N) (acc : N) (need : nat) : str :=
  match bs with
  | [] => []
  | b :: bs' =>
      match need with
      | O =>
          if b <? 128 then b :: utf8 bs' 0 O
          else if b <? 224 then utf8 bs' (b - 192) 1%nat
          else if b <? 240 then utf8 bs' (b - 224) 2%nat
          else utf8 bs' (b - 240) 3%nat
      | S n =>
          let acc' := acc * 64 + (b - 128) in
          match n with
          | O => acc' :: utf8 bs' 0 O
          | S _ => utf8 bs' acc' n
          end
      end
  end.

Definition py (s : string) : str :=
  utf8 (map N_of_ascii (list_ascii_of_string s)) 0 O.

(** ** Python [str] primitives *)

(** [str.isspace] of one character, which is also [\s] of [re] on [str]
    patterns and the set [str.strip] removes. *)
Definition isspace (c : N) : bool :=
  ((9 <=? c) && (c <=? 13)) || ((28 <=? c) && (c <=? 32))
  || (c =? 133) || (c =? 160) || (c =? 5760)
  || ((8192 <=? c) && (c <=? 8202))
  || (c =? 8232) || (c =? 8233) || (c =? 8239) || (c =? 8287)
  || (c =? 12288).

Fixpoint lstrip (s : str) : str :=
  match s with
  | [] => []
  | c :: s' => if isspace c then lstrip s' else s
  end.

Fixpoint rstrip (s : str) : str :=
  match s with
  | [] => []
  | c :: s' =>
      match rstrip s' with
      | [] => if isspace c then [] else [c]
      | r => c :: r
      end
  end.

(** [s.strip()] *)
Definition strip (s : str) : str := rstrip (lstrip s).

(** [s.replace(old, new)] for a one-character [old]. *)
Definition replace1 (old : N) (new : str) (s : str) : str :=
  flat_map (fun c => if c =? old then new else [c]) s.

(** [s.startswith(k)] *)
Fixpoint startswith (s k : str) {struct k} : bool :=
  match k, s with
  | [], _ => true
  | _ :: _, [] => false
  | a :: k', c :: s' => (c =? a) && startswith s' k'
  end.

(** A Python string is truthy when it is not empty. *)
Definition truthy (s : str) : bool :=
  match s with [] => false | _ :: _ => true end.

(** ** The static tables *)

Definition PLACEHOLDER_KEYS : list str := Eval vm_compute in map py [
  "候補者氏名";"フリガナ";"生年月日";"年齢";"最終学歴";"電話番号";"MAIL";"郵便番号";
  "現住所都道府県名";"現年収";"希望年収";"就業可能時期";"現職の雇用形態";"ステータス";
  "運転免許の有無";"自家用車の有無";"既往歴の有無";"扶養_配偶者の有無";
  "外国籍_永住権の有無";"犯罪歴の有無";"入社後2ヶ月までの費用";"希望勤務地";
  "出張_可否";"出張_期間";"出張_範囲";"転居_可否";"転居_範囲";
  "紹介先企業名_1";"紹介先企業名_2";"紹介先企業名_3";
  "希望職種_1";"希望職種_2";"希望職種_3";
  "希望選考方法";"面接候補日_1";"面接候補日_2";"面接候補日_3";
  "空白期間";"中途退学理由";"短期離職理由";"推薦文"
]%string.

Definition ALIASES_items : list (str * str) := Eval vm_compute in
  map (fun '(a, k) => (py a, py k)) [
    ("扶養＆配偶者の有無", "扶養_配偶者の有無");
    ("現住所（都道府県名）", "現住所都道府県名");
    ("永住権の有無", "外国籍_永住権の有無");
    ("入社後〜2ヶ月の費用", "入社後2ヶ月までの費用")
  ]%string.

Definition ALIASES : gmap str str := list_to_map ALIASES_items.

(** ** Label normaliser *)

Definition FW_COLON : N := 65306.  (* U+FF1A *)
Definition FW_SPACE : N := 12288.  (* U+3000 *)

(** The label as cleaned on the second line of [normalize_label]. *)
Definition clean_label (label : str) : str :=
  replace1 FW_SPACE (py " ") (replace1 FW_COLON (py ":") (strip label)).

(** [label] is [None] for Python's [None]; [str(label)] of a string is
    the string. *)
Definition normalize_label (label : option str) : str :=
  match label with
  | None => []
  | Some l =>
      let s := clean_label l in
      match ALIASES !! s with
      | Some k => k
      | None => s
      end
  end.

Definition to_template_key (label : option str) : str :=
  let lab := normalize_label label in
  if decide (lab ∈ PLACEHOLDER_KEYS) then lab
  else match List.find (startswith lab) PLACEHOLDER_KEYS with
       | Some k => k
       | None => lab
       end.

(** ** Spreadsheet extractor *)

(** A cell value as [iter_rows(values_only=True)] yields it.  [CObj]
    stands for the remaining value types (float, datetime, ...), given
    by their truth value and their [str()]. *)
Inductive cell :=
  | CNone
  | CStr (s : str)
  | CBool (b : bool)
  | CInt (z : Z)
  | CObj (truth : bool) (text : str).

Definition cell_truthy (c : cell) : bool :=
  match c with
  | CNone => false
  | CStr s => truthy s
  | CBool b => b
  | CInt z => negb (z =? 0)%Z
  | CObj t _ => t
  end.

(** [str(c)] *)
Definition cell_str (c : cell) : str :=
  match c with
  | CNone => py "None"
  | CStr s => s
  | CBool b => if b then py "True" else py "False"
  | CInt z => py (NilEmpty.string_of_int (Z.to_int z))
  | CObj _ t => t
  end.

(** One iteration of the loop of [extract_from_excel]. *)
Definition excel_row (result : gmap str str) (row : list cell) : gmap str str :=
  match row with
  | [] => result
  | key :: rest =>
      let val := match rest with v :: _ => v | [] => CNone end in
      if cell_truthy key && cell_truthy val then
        let tkey := to_template_key (Some (cell_str key)) in
        if decide (tkey ∈ PLACEHOLDER_KEYS)
        then <[tkey := strip (cell_str val)]> result
        else result
      else result
  end.

(** The workbook is the list of its worksheets, each a list of rows;
    [wb.worksheets[0]] raises on an empty list ([None]). *)
Definition extract_from_excel (wb : list (list (list cell)))
  : option (gmap str str) :=
  ws ← wb !! 0%nat;
  Some (foldl excel_row ∅ ws).

(** ** Regular expressions

    The fragment of [re] the program uses, with the backtracking order
    of the library: a greedy star tries the longest run first, a lazy
    plus the shortest. *)

Inductive atom :=
  | Chr (c : N)            (* a literal character *)
  | Cls (cs : list N)      (* [...] *)
  | Spc                    (* \s *)
  | Any.                   (* . *)

Definition accepts (a : atom) (c : N) : bool :=
  match a with
  | Chr x => c =? x
  | Cls cs => existsb (N.eqb c) cs
  | Spc => isspace c
  | Any => negb (c =? 10)
  end.

Inductive piece :=
  | One (a : atom)         (* a *)
  | Star (a : atom)        (* a* *)
  | LazyPlus (a : atom)    (* (a+?), a capturing group *)
  | Eos.                   (* $ *)

(** The result of a match at the head of a string: the captured groups
    and the text left after the match. *)
Abbreviation matched := (list str * str)%type.

Fixpoint star (a : atom) (k : str -> option matched) (s : str)
  : option matched :=
  match s with
  | [] => k []
  | c :: s' =>
      if accepts a c then
        match star a k s' with
        | Some r => Some r
        | None => k s
        end
      else k s
  end.

(** [acc] is the text the group holds so far, reversed. *)
Fixpoint lazy_more (a : atom) (k : str -> option matched) (acc s : str)
  : option matched :=
  match k s with
  | Some (caps, rest) => Some (rev acc :: caps, rest)
  | None =>
      match s with
      | [] => None
      | c :: s' => if accepts a c then lazy_more a k (c :: acc) s' else None
      end
  end.

Fixpoint run (ps : list piece) (s : str) {struct ps} : option matched :=
  match ps with
  | [] => Some ([], s)
  | One a :: ps' =>
      match s with
      | [] => None
      | c :: s' => if accepts a c then run ps' s' else None
      end
  | Star a :: ps' => star a (run ps') s
  | LazyPlus a :: ps' =>
      match s with
      | [] => None
      | c :: s' => if accepts a c then lazy_more a (run ps') [c] s' else None
      end
  | Eos :: ps' =>
      match s with
      | [] => run ps' s
      | [c] => if c =? 10 then run ps' s else None
      | _ => None
      end
  end.

(** [re.match(r"^\s*(.+?)\s*[:：]\s*(.+?)\s*$", line)] *)
Definition LINE_RE : list piece :=
  [Star Spc; LazyPlus Any; Star Spc; One (Cls [58; FW_COLON]);
   Star Spc; LazyPlus Any; Star Spc; Eos].

Definition match_line (line : str) : option (str * str) :=
  match run LINE_RE line with
  | Some ([g1; g2], _) => Some (g1, g2)
  | _ => None
  end.

(** ** PDF extractor *)

(** [str.splitlines]: [skip] is set after a carriage return, whose
    following line feed belongs to the same line boundary. *)
Definition is_linebreak (c : N) : bool :=
  ((10 <=? c) && (c <=? 13)) || ((28 <=? c) && (c <=? 30))
  || (c =? 133) || (c =? 8232) || (c =? 8233).

Fixpoint splitlines_from (skip : bool) (cur : str) (s : str) : list str :=
  match s with
  | [] => match cur with [] => [] | _ => [rev cur] end
  | c :: s' =>
      if skip && (c =? 10) then splitlines_from false cur s'
      else if is_linebreak c then rev cur :: splitlines_from (c =? 13) [] s'
      else splitlines_from false (c :: cur) s'
  end.

Definition splitlines (s : str) : list str := splitlines_from false [] s.

(** [sep.join(l)] *)
Fixpoint join (sep : str) (l : list str) : str :=
  match l with
  | [] => []
  | [x] => x
  | x :: l' => x ++ sep ++ join sep l'
  end.

(** What the PDF libraries give for the file: [reader] is [None] when
    [PdfReader] raises, and a page is [PageRaises] when its
    [extract_text] does; [ocr] holds the recognised text of every page
    image, or [None] when rendering or recognition raises. *)
Inductive page :=
  | PageText (t : option str)
  | PageRaises.

Record pdf_file := {
  reader : option (list page);
  ocr : option (list str)
}.

(** The text accumulated by the [try] block. *)
Fixpoint read_pages (pages : list page) : str :=
  match pages with
  | [] => []
  | PageRaises :: _ => []
  | PageText t :: pages' => default [] t ++ [10] ++ read_pages pages'
  end.

Definition text_layer (f : pdf_file) : str :=
  match reader f with
  | None => []
  | Some pages => read_pages pages
  end.

(** One iteration of the loop over the lines. *)
Definition pdf_line (result : gmap str str) (line : str) : gmap str str :=
  if negb (truthy (strip line)) then result
  else match match_line line with
       | None => result
       | Some (raw_k, raw_v) =>
           let tkey := to_template_key (Some raw_k) in
           if bool_decide (tkey ∈ PLACEHOLDER_KEYS) && truthy raw_v
           then <[tkey := strip raw_v]> result
           else result
       end.

Definition pdf_text (f : pdf_file) : option str :=
  let text := text_layer f in
  if negb (truthy (strip text)) then
    ocr_texts ← ocr f;
    Some (join [10] ocr_texts)
  else Some text.

Definition extract_from_pdf (f : pdf_file) : option (gmap str str) :=
  text ← pdf_text f;
  Some (foldl pdf_line ∅ (splitlines text)).

(** ** Replacement templates

    [pattern.sub(repl, text)] with a string [repl] reads [repl] as a
    template before it searches: without a backslash it is literal;
    otherwise escapes are decoded and group references resolved, and a
    malformed template raises (here [None]), whether or not the pattern
    occurs.  The patterns of this program have no group, so the only
    reference that resolves is the whole match, [\g<0>].  The number
    is read as Python 3.12 and later read it, from the digit 0 only;
    earlier versions pass the name to [int], which takes further
    spellings of zero.  Whatever is a template here is one on every
    version, with the same expansion, and the statements below rely on
    this direction only, and on a backslash that ends the string, which
    no version accepts. *)

Inductive tpiece :=
  | TLit (c : N)
  | TWhole.

Definition isoct (c : N) : bool := (48 <=? c) && (c <=? 55).
Definition isdigit (c : N) : bool := (48 <=? c) && (c <=? 57).
Definition isalpha (c : N) : bool :=
  ((65 <=? c) && (c <=? 90)) || ((97 <=? c) && (c <=? 122)).

(** [\a \b \f \n \r \t \v \\] *)
Definition ESCAPES : list (N * N) :=
  [(97, 7); (98, 8); (102, 12); (110, 10); (114, 13); (116, 9); (118, 11);
   (92, 92)].

(** [name] is [Some seen] inside the name of [\g<name>], where [seen]
    tells that a digit of the name was read. *)
Fixpoint parse_template (name : option bool) (s : str)
  : option (list tpiece) :=
  match name, s with
  | Some _, [] => None
  | Some seen, c :: s' =>
      if c =? 48 then parse_template (Some true) s'
      else if (c =? 62) && seen then cons TWhole <$> parse_template None s'
      else None
  | None, [] => Some []
  | None, c :: s' =>
      if negb (c =? 92) then cons (TLit c) <$> parse_template None s'
      else
        match s' with
        | [] => None
        | e :: s2 =>
            if e =? 103 then
              match s2 with
              | 60 :: s3 => parse_template (Some false) s3
              | _ => None
              end
            else if e =? 48 then
              match s2 with
              | d1 :: s3 =>
                  if isoct d1 then
                    match s3 with
                    | d2 :: s4 =>
                        if isoct d2
                        then cons (TLit ((d1 - 48) * 8 + (d2 - 48)))
                               <$> parse_template None s4
                        else cons (TLit (d1 - 48)) <$> parse_template None s3
                    | [] => cons (TLit (d1 - 48)) <$> parse_template None s3
                    end
                  else cons (TLit 0) <$> parse_template None s2
              | [] => cons (TLit 0) <$> parse_template None s2
              end
            else if isdigit e then
              match s2 with
              | d2 :: d3 :: s4 =>
                  if isoct e && isoct d2 && isoct d3 && (e <=? 51)
                  then cons (TLit ((e - 48) * 64 + (d2 - 48) * 8 + (d3 - 48)))
                         <$> parse_template None s4
                  else None
              | _ => None
              end
            else
              match List.find (fun p => e =? p.1) ESCAPES with
              | Some p => cons (TLit p.2) <$> parse_template None s2
              | None =>
                  if isalpha e then None
                  else (fun t => TLit 92 :: TLit e :: t)
                         <$> parse_template None s2
              end
        end
  end.

Definition expand (tpl : list tpiece) (whole : str) : str :=
  flat_map (fun t => match t with TLit c => [c] | TWhole => whole end) tpl.

(** The scan of [pattern.sub] for a pattern that matches no empty
    string: the leftmost match is replaced and the scan resumes after
    it.  [skip] counts the characters of the last match still to pass. *)
Fixpoint sub_from (ps : list piece) (tpl : list tpiece) (skip : nat) (s : str)
  : str :=
  match s with
  | [] => []
  | c :: s' =>
      match skip with
      | S n => sub_from ps tpl n s'
      | O =>
          match run ps s with
          | Some (_, rest) =>
              let n := (length s - length rest)%nat in
              expand tpl (take n s) ++ sub_from ps tpl (n - 1) s'
          | None => c :: sub_from ps tpl O s'
          end
      end
  end.

(** ** Template filler *)

Definition ZWS : N := 8203.        (* U+200B *)
Definition FW_LBRACE : N := 65371. (* U+FF5B *)
Definition FW_RBRACE : N := 65373. (* U+FF5D *)

Definition _normalize_text (s : str) : str :=
  replace1 ZWS [] (replace1 FW_RBRACE (py "}") (replace1 FW_LBRACE (py "{") s)).

(** [re.compile(r"\{\{\s*" + re.escape(k) + r"\s*\}\}")] *)
Definition token_re (k : str) : list piece :=
  [One (Chr 123); One (Chr 123); Star Spc] ++ map (fun c => One (Chr c)) k
  ++ [Star Spc; One (Chr 125); One (Chr 125)].

(** A mapping value is [None] or a string; [str(v)] of a string is the
    string. *)
Definition repl_of (v : option str) : str :=
  match v with
  | None => []
  | Some s => s
  end.

(** One iteration of the loop of [_replace_text_block]. *)
Definition sub_key (text : option str) (kv : str * option str) : option str :=
  t ← text;
  tpl ← parse_template None (repl_of kv.2);
  Some (sub_from (token_re kv.1) tpl O t).

(** The mapping is listed in the order of [mapping.items()]. *)
Definition _replace_text_block (raw_text : str)
    (mapping : list (str * option str)) : option str :=
  foldl sub_key (Some (_normalize_text raw_text)) mapping.

(** The characters the XML library takes in the text of an element:
    tab, line feed, carriage return and everything from the space on,
    but no surrogate and neither U+FFFE nor U+FFFF. *)
Definition xml_char (c : N) : bool :=
  (c =? 9) || (c =? 10) || (c =? 13)
  || ((32 <=? c) && negb ((55296 <=? c) && (c <=? 57343))
      && negb (c =? 65534) && negb (c =? 65535)).

(** A run: the text that [run.text] reads and its formatting
    properties.  The text was read from an XML document, so it is made
    of XML characters. *)
Record Run := {
  text : str;
  rPr : N;
  text_xml : forallb xml_char text = true
}.

(** What [run.text] reads after [run.text = t].  The setter stores the
    text as [<w:t>] elements, a tab as [<w:tab/>], and a line feed and
    a carriage return alike as a line break [<w:br/>], which reads as
    a line feed. *)
Definition stored (t : str) : str :=
  map (fun c => if c =? 13 then 10 else c) t.

Definition holds (b : bool) : option (b = true) :=
  match b with
  | true => Some eq_refl
  | false => None
  end.

(** [r.text = t].  The setter raises [ValueError] (here [None]) when
    the text holds a character that is not an XML character; the
    formatting of the run stays.  (The test is on the characters of
    [t] other than tab, line feed and carriage return, which are XML
    characters: it is the same on [t] and on [stored t].) *)
Definition set_text (r : Run) (t : str) : option Run :=
  ok ← holds (forallb xml_char (stored t));
  Some {| text := stored t; rPr := rPr r; text_xml := ok |}.

Abbreviation paragraph := (list Run).

Definition joined (p : paragraph) : str := concat (map text p).

Definition _replace_in_paragraph (p : paragraph)
    (mapping : list (str * option str)) : option paragraph :=
  match p with
  | [] => Some p
  | r0 :: rs =>
      replaced ← _replace_text_block (joined p) mapping;
      if decide (replaced ≠ joined p)
      then r0' ← set_text r0 replaced;
           rs' ← mapM (fun r => set_text r []) rs;
           Some (r0' :: rs')
      else Some p
  end.

(** The document: [xml] holds its paragraphs, and the body, the tables,
    the headers and the footers refer to them by position, as the
    proxy objects of the library refer to the elements of one tree (a
    merged cell is listed once per grid column, a header linked to the
    previous section is the same header). *)
Abbreviation table := (list (list (list nat))).

Record story := {
  paragraphs : list nat;
  tables : list table
}.

Record section := {
  header : option story;
  footer : option story
}.

Record document := {
  xml : list paragraph;
  body : story;
  sections : list section
}.

(** [_replace_in_paragraph] on the paragraph at position [i] of the
    tree, in place. *)
Definition visit (mapping : list (str * option str))
    (tree : option (list paragraph)) (i : nat) : option (list paragraph) :=
  x ← tree;
  match x !! i with
  | None => Some x
  | Some p =>
      p' ← _replace_in_paragraph p mapping;
      Some (<[i := p']> x)
  end.

Definition _replace_in_table (mapping : list (str * option str))
    (tree : option (list paragraph)) (t : table) : option (list paragraph) :=
  foldl (fun tree row =>
    foldl (fun tree cell => foldl (visit mapping) tree cell) tree row)
    tree t.

Definition replace_in_story (mapping : list (str * option str))
    (tree : option (list paragraph)) (s : story) : option (list paragraph) :=
  foldl (_replace_in_table mapping)
    (foldl (visit mapping) tree (paragraphs s)) (tables s).

Definition replace_in_section (mapping : list (str * option str))
    (tree : option (list paragraph)) (sec : section)
  : option (list paragraph) :=
  let tree :=
    match header sec with
    | Some h => replace_in_story mapping tree h
    | None => tree
    end in
  match footer sec with
  | Some f => replace_in_story mapping tree f
  | None => tree
  end.

(** The document saved at [output_path], or [None] when a substitution
    or the setter of a run raises. *)
Definition fill_docx_placeholders (doc : document)
    (mapping : list (str * option str)) : option document :=
  x ← foldl (replace_in_section mapping)
        (replace_in_story mapping (Some (xml doc)) (body doc))
        (sections doc);
  Some {| xml := x; body := body doc; sections := sections doc |}.

(** ** Orchestration: [process] *)

(** The uploaded file as its parsers see it: [workbook] is [None] when
    [load_workbook] raises. *)
Record upload := {
  workbook : option (list (list (list cell)));
  pdf : pdf_file
}.

Record report := {
  filled_count : nat;
  missing_keys : list str
}.

Inductive outcome :=
  | ExtractionRaised
  | TemplateNotFound
  | FillRaised
  | Done (completed : list (str * option str)) (out : document)
         (meta : report).

(** [suffix] is the lower-cased suffix of the file name. *)
Definition extract (suffix : str) (f : upload) : option (gmap str str) :=
  if bool_decide (suffix ∈ [py ".xlsx"; py ".xlsm"]) then
    wb ← workbook f; extract_from_excel wb
  else if bool_decide (suffix = py ".pdf") then extract_from_pdf (pdf f)
  else Some ∅.

(** [{k: extracted.get(k, "") for k in PLACEHOLDER_KEYS}] *)
Definition complete (extracted : gmap str str) : list (str * option str) :=
  map (fun k => (k, Some (default [] (extracted !! k)))) PLACEHOLDER_KEYS.

Definition value_truthy (v : option str) : bool :=
  match v with
  | None => false
  | Some s => truthy s
  end.

Definition make_report (completed : list (str * option str)) : report :=
  {| filled_count :=
       length (filter (fun kv => value_truthy kv.2 = true) completed);
     missing_keys :=
       map fst (filter (fun kv => value_truthy kv.2 = false) completed) |}.

(** [template] is [None] when the template file does not exist. *)
Definition process (suffix : str) (f : upload) (template : option document)
  : outcome :=
  match extract suffix f with
  | None => ExtractionRaised
  | Some extracted =>
      let completed := complete extracted in
      match template with
      | None => TemplateNotFound
      | Some tpl =>
          match fill_docx_placeholders tpl completed with
          | None => FillRaised
          | Some out => Done completed out (make_report completed)
          end
      end
  end.

(** ** Preview *)

(** [str(v)] of a mapping value. *)
Definition pystr (v : option str) : str :=
  match v with
  | None => py "None"
  | Some s => s
  end.

(** The local function [esc] of [safe_preview_table]. *)
Definition esc (s : str) : str :=
  replace1 62 (py "&gt;") (replace1 60 (py "&lt;") (replace1 38 (py "&amp;") s)).

(** [data] lists the items of the dictionary in order. *)
Definition safe_preview_table (data : list (str * option str)) : str :=
  py "<table border='1'>"
  ++ concat (map (fun kv => py "<tr><th>" ++ esc kv.1 ++ py "</th><td>"
                            ++ esc (pystr kv.2) ++ py "</td></tr>") data)
  ++ py "</table>".

(** [{k:v for k,v in completed.items() if v}], the dictionary [process]
    previews. *)
Definition preview_items (completed : list (str * option str))
  : list (str * option str) :=
  filter (fun kv => value_truthy kv.2 = true) completed.

(** * Vocabulary of the properties *)

(** A string that [strip] leaves alone. *)
Definition trimmed (s : str) : Prop := lstrip s = s ∧ rstrip s = s.

(** The checks every entry of the alias table passes: its target is
    clean, is no alias itself and is a canonical key. *)
Definition alias_ok (e : str * str) : bool :=
  bool_decide (clean_label e.2 = e.2)
  && bool_decide (ALIASES !! e.2 = None)
  && bool_decide (e.2 ∈ PLACEHOLDER_KEYS).

(** The checks every canonical key passes: it is not empty, [strip]
    and the two replacements of [normalize_label] leave it alone, it
    is a prefix of no alias and of no other canonical key. *)
Definition key_ok (K : str) : bool :=
  truthy K
  && bool_decide (lstrip K = K) && bool_decide (rstrip K = K)
  && bool_decide (replace1 FW_COLON (py ":") K = K)
  && bool_decide (replace1 FW_SPACE (py " ") K = K)
  && forallb (fun e : str * str => negb (startswith e.1 K)) ALIASES_items
  && forallb (fun K' => implb (startswith K' K) (bool_decide (K = K')))
       PLACEHOLDER_KEYS.

(** What a row of the worksheet stores: the canonical key and the
    value, when the row is accepted. *)
Definition excel_entry (row : list cell) : option (str * str) :=
  match row with
  | key :: val :: _ =>
      if cell_truthy key && cell_truthy val then
        let tkey := to_template_key (Some (cell_str key)) in
        if decide (tkey ∈ PLACEHOLDER_KEYS)
        then Some (tkey, strip (cell_str val))
        else None
      else None
  | _ => None
  end.

(** What a line of the PDF text stores. *)
Definition pdf_entry (line : str) : option (str * str) :=
  if negb (truthy (strip line)) then None
  else match match_line line with
       | None => None
       | Some (raw_k, raw_v) =>
           let tkey := to_template_key (Some raw_k) in
           if bool_decide (tkey ∈ PLACEHOLDER_KEYS) && truthy raw_v
           then Some (tkey, strip raw_v)
           else None
       end.

(** A loop body that stores at most one entry per item. *)
Definition stores {A} (step : gmap str str → A → gmap str str)
    (entry : A → option (str * str)) : Prop :=
  ∀ m x, step m x = match entry x with
                    | Some (k, v) => <[k := v]> m
                    | None => m
                    end.

(** [extracted.get(K, "")] is the empty string. *)
Definition blank (extracted : gmap str str) (K : str) : Prop :=
  default [] (extracted !! K) = [].

(** The keys that [filled_count] counts. *)
Definition filled_keys (completed : list (str * option str)) : list str :=
  map fst (filter (fun kv => value_truthy kv.2 = true) completed).

(** The pattern matches at the head of some non-empty suffix of [s]. *)
Fixpoint occurs (ps : list piece) (s : str) : bool :=
  match s with
  | [] => false
  | _ :: s' => bool_decide (is_Some (run ps s)) || occurs ps s'
  end.

(** The pieces of [re.escape(k)], and the end of a token pattern. *)
Definition lits (k : str) : list piece := map (fun c => One (Chr c)) k.

Definition tail_re : list piece := [Star Spc; One (Chr 125); One (Chr 125)].

(** Characters a plain key does not contain: white space, braces of
    either width and the zero-width space. *)
Definition special (c : N) : bool :=
  isspace c || bool_decide (c ∈ [123; 125; FW_LBRACE; FW_RBRACE; ZWS]).

(** A key like the canonical ones: not empty, no special character. *)
Definition plain_key (k : str) : Prop :=
  k ≠ [] ∧ Forall (fun c => special c = false) k.

(** White space only. *)
Definition spaces (w : str) : Prop := Forall (fun c => isspace c = true) w.

(** The text of a placeholder token for [K]. *)
Definition token (w1 K w2 : str) : str :=
  [123; 123] ++ w1 ++ K ++ w2 ++ [125; 125].

(** Every value of the mapping is a well-formed replacement template
    (a value without a backslash always is). *)
Definition valid_values (mapping : list (str * option str)) : Prop :=
  Forall (fun kv => is_Some (parse_template None (repl_of kv.2))) mapping.

(** No key of the mapping has a token in [t]. *)
Definition token_free (mapping : list (str * option str)) (t : str) : Prop :=
  Forall (fun kv => occurs (token_re kv.1) t = false) mapping.

(** The paragraphs in the order in which the filler meets them. *)
Definition in_table (t : table) : list nat := concat (concat t).

Definition in_story (s : story) : list nat :=
  paragraphs s ++ concat (map in_table (tables s)).

Definition in_section (sec : section) : list nat :=
  from_option in_story [] (header sec) ++ from_option in_story [] (footer sec).

Definition visit_order (doc : document) : list nat :=
  in_story (body doc) ++ concat (map in_section (sections doc)).



(** Same paragraphs, same runs, same formatting. *)
Definition same_shape (x x' : list paragraph) : Prop :=
  Forall2 (fun p p' => length p' = length p ∧ map rPr p' = map rPr p) x x'.

(** Text made of XML characters. *)
Definition xml_text (s : str) : Prop := forallb xml_char s = true.

(** A run with the given text and formatting. *)
Definition Run_of (t : str) (f : N) (ok : xml_text t) : Run :=
  {| text := t; rPr := f; text_xml := ok |}.

(** A run emptied by [r.text = ""]. *)
Definition cleared (r : Run) : Run := Run_of [] (rPr r) eq_refl.

(** The text of a paragraph of text [old] after the filler computed
    [new] for it: the setter runs only when the two differ. *)
Definition written (old new : str) : str :=
  if decide (new = old) then old else stored new.

(** The control characters that are no XML characters. *)
Definition control (c : N) : bool :=
  (c <? 32) && negb ((c =? 9) || (c =? 10) || (c =? 13)).

(** Values without a backslash, made of XML characters: they stand
    for themselves as replacements and the setter of a run takes them. *)
Definition safe_values (mapping : list (str * option str)) : Prop :=
  Forall (fun kv => (92 ∉ repl_of kv.2) ∧ xml_text (repl_of kv.2)) mapping.

(** A small template: a body of two paragraphs and a table of one
    cell, and a header that shows the second body paragraph again. *)
Definition sample_template : document :=
  {| xml := [ [Run_of (py "｛｛候補者氏名") 1 eq_refl;
               Run_of (py "}}様") 2 eq_refl];
              [Run_of (py "連絡先") 3 eq_refl];
              [Run_of (py "{{ MAIL }}") 4 eq_refl] ];
     body := {| paragraphs := [0; 1]%nat; tables := [[[[2]]]]%nat |};
     sections := [{| header := Some {| paragraphs := [1]%nat; tables := [] |};
                     footer := None |}] |}.

(** The completed mapping of an empty extraction. *)
Definition blanks : list (str * option str) :=
  map (fun k => (k, Some [])) PLACEHOLDER_KEYS.

(** Text without a colon of either width. *)
Definition colon_free (s : str) : Prop := (58 ∉ s) ∧ (FW_COLON ∉ s).

(** Text in which no token starts, whatever follows it: each opening
    brace is followed by a character that is no opening brace. *)
Fixpoint quiet (t : str) : bool :=
  match t with
  | [] => true
  | c :: t' =>
      (negb (c =? 123)
       || match t' with
          | d :: _ => negb (d =? 123)
          | [] => false
          end)
      && quiet t'
  end.

(** A piece of template text: text in which no token starts, or a
    token. *)
Inductive segment :=
  | Plain (t : str)
  | Tok (w1 K w2 : str).

Definition seg_raw (s : segment) : str :=
  match s with
  | Plain t => t
  | Tok w1 K w2 => token w1 K w2
  end.

(** [mapping.get(K)]: the first entry of [K] in the list of items. *)
Fixpoint assoc (K : str) (mapping : list (str * option str))
  : option (option str) :=
  match mapping with
  | [] => None
  | kv :: mapping' => if decide (kv.1 = K) then Some kv.2 else assoc K mapping'
  end.

(** The piece after the substitution: plain text normalised, a token
    replaced by the value of its key when the mapping has the key. *)
Definition seg_filled (mapping : list (str * option str)) (s : segment) : str :=
  match s with
  | Plain t => _normalize_text t
  | Tok w1 K w2 =>
      match assoc K mapping with
      | Some v => repl_of v
      | None => token w1 K w2
      end
  end.

Definition seg_ok (s : segment) : Prop :=
  match s with
  | Plain t => quiet (_normalize_text t) = true
  | Tok w1 K w2 => spaces w1 ∧ plain_key K ∧ spaces w2
  end.

(** Values that hold neither a backslash nor an opening brace. *)
Definition literal_values (mapping : list (str * option str)) : Prop :=
  Forall (fun kv => (92 ∉ repl_of kv.2) ∧ (123 ∉ repl_of kv.2)) mapping.

(** A paragraph without a brace of either width and without a
    zero-width space. *)
Definition inert (p : paragraph) : Prop :=
  Forall (fun c => c ∉ [123; FW_LBRACE; FW_RBRACE; ZWS]) (joined p).

(** How often [c] occurs in [s]. *)
Definition count (c : N) (s : str) : nat := length (filter (fun d => d = c) s).

(** The inverse of [esc]: the three entities back to their characters. *)
Fixpoint unesc (s : str) : str :=
  match s with
  | [] => []
  | c :: t =>
      if c =? 38 then
        match t with
        | 97 :: 109 :: 112 :: 59 :: t' => 38 :: unesc t'
        | 108 :: 116 :: 59 :: t' => 60 :: unesc t'
        | 103 :: 116 :: 59 :: t' => 62 :: unesc t'
        | _ => c :: unesc t
        end
      else c :: unesc t
  end.

(** * Properties *)

(** ** Strings *)

Lemma startswith_prefix (s k : str) :
  startswith s k = true ↔ k `prefix_of` s.
Proof.
  revert s; induction k as [|a k IH]; intros s; simpl.
  - split; [intros _; apply prefix_nil | done].
  - destruct s as [|c s].
    + split; [done | intros [x Hx]; discriminate].
    + rewrite andb_true_iff, IH, N.eqb_eq. split.
      * intros [-> H]. by apply prefix_cons.
      * intros [x Hx]. injection Hx as -> ->. split; [done | by exists x].
Qed.

Lemma lstrip_fix (s : str) :
  lstrip s = s ↔ s = [] ∨ ∃ c s', s = c :: s' ∧ isspace c = false.
Proof.
  destruct s as [|c s]; simpl.
  - split; [by left | done].
  - destruct (isspace c) eqn:E.
    + split.
      * intros H. exfalso.
        assert (Hl : ∀ t : str, (length (lstrip t) ≤ length t)%nat).
        { induction t as [|d t IHt]; simpl; [done|].
          destruct (isspace d); simpl; lia. }
        specialize (Hl s). rewrite H in Hl. simpl in Hl. lia.
      * intros [?|(c' & s' & Heq & Hc)]; [done|]. congruence.
    + split; [|done]. intros _. right. by exists c, s.
Qed.

Lemma rstrip_nil (s : str) : rstrip s = [] → ∀ c, last s = Some c → isspace c = true.
Proof.
  induction s as [|c s IH]; simpl; [done|].
  intros H x Hl. remember (rstrip s) as t eqn:E. destruct t as [|d r]; [|done].
  destruct (isspace c) eqn:Ec; [|done].
  destruct s as [|e s]; [by injection Hl as <-|]. by apply IH.
Qed.

Lemma rstrip_fix (s : str) :
  rstrip s = s ↔ s = [] ∨ ∃ c, last s = Some c ∧ isspace c = false.
Proof.
  induction s as [|c s IH]; simpl.
  - split; [by left | done].
  - remember (rstrip s) as t eqn:E. destruct t as [|d r].
    + symmetry in E. pose proof (rstrip_nil s E) as Hn. split.
      * destruct (isspace c) eqn:Ec; [done|].
        intros H. injection H as <-. right. by exists c.
      * intros [?|(x & Hl & Hx)]; [done|].
        destruct s as [|e s]; [injection Hl as <-; by rewrite Hx|].
        rewrite (Hn x) in Hx; done.
    + split.
      * intros H. injection H as H. right.
        apply IH in H as [->|(x & Hl & Hx)]; [done|].
        exists x. split; [|done]. by destruct s.
      * intros [?|(x & Hl & Hx)]; [done|].
        destruct s as [|e s]; [done|].
        f_equal. apply IH. right. by exists x.
Qed.

Lemma rstrip_app (a b : str) :
  rstrip (a ++ b) = match rstrip b with [] => rstrip a | r => a ++ r end.
Proof.
  induction a as [|c a IH]; simpl.
  - by destruct (rstrip b).
  - rewrite IH. destruct (rstrip b) as [|d r]; [done|].
    by destruct a.
Qed.

Lemma rstrip_idem (s : str) : rstrip (rstrip s) = rstrip s.
Proof.
  induction s as [|c s IH]; simpl; [done|].
  destruct (rstrip s) as [|d r] eqn:E.
  - destruct (isspace c) eqn:Ec; simpl; by rewrite ?Ec.
  - change (rstrip (c :: d :: r)) with
      (match rstrip (d :: r) with [] => if isspace c then [] else [c]
                              | r' => c :: r' end).
    by rewrite IH.
Qed.

Lemma lstrip_rstrip (s : str) : lstrip s = s → lstrip (rstrip s) = rstrip s.
Proof.
  intros [->|(c & s' & -> & Hc)]%lstrip_fix; [done|].
  apply lstrip_fix. simpl.
  destruct (rstrip s') as [|d r]; rewrite ?Hc; right; eauto.
Qed.

Lemma lstrip_idem (s : str) : lstrip (lstrip s) = lstrip s.
Proof.
  induction s as [|c s IH]; simpl; [done|].
  destruct (isspace c) eqn:E; [done|]. simpl. by rewrite E.
Qed.

Lemma strip_trimmed (s : str) : trimmed (strip s).
Proof.
  split; unfold strip.
  - apply lstrip_rstrip, lstrip_idem.
  - apply rstrip_idem.
Qed.

Lemma trimmed_strip (s : str) : trimmed s → strip s = s.
Proof. intros [Hl Hr]. unfold strip. by rewrite Hl. Qed.

Lemma replace1_map (old new : N) (s : str) :
  replace1 old [new] s = map (fun c => if c =? old then new else c) s.
Proof.
  induction s as [|c s IH]; simpl; [done|].
  fold (replace1 old [new] s). rewrite IH. by destruct (c =? old).
Qed.

Lemma trimmed_map (f : N → N) (s : str) :
  (∀ c, isspace c = false → isspace (f c) = false) →
  trimmed s → trimmed (map f s).
Proof.
  intros Hf [Hl Hr]. split.
  - apply lstrip_fix. apply lstrip_fix in Hl as [->|(c & s' & -> & Hc)];
      [by left|]. right. exists (f c), (map f s'). auto.
  - apply rstrip_fix. apply rstrip_fix in Hr as [->|(c & Hlast & Hc)];
      [by left|]. right. exists (f c). split; [|auto].
    change (map f s) with (f <$> s). by rewrite fmap_last, Hlast.
Qed.

(** ** The static tables, checked by evaluation *)

Lemma ALIASES_ok : forallb alias_ok ALIASES_items = true.
Proof. vm_compute. reflexivity. Qed.

Lemma PLACEHOLDER_KEYS_ok : forallb key_ok PLACEHOLDER_KEYS = true.
Proof. vm_compute. reflexivity. Qed.

Lemma ALIASES_lookup (s k : str) :
  ALIASES !! s = Some k → (s, k) ∈ ALIASES_items.
Proof. apply elem_of_list_to_map_2. Qed.

Lemma alias_target (s k : str) :
  ALIASES !! s = Some k →
  clean_label k = k ∧ ALIASES !! k = None ∧ k ∈ PLACEHOLDER_KEYS.
Proof.
  intros H%ALIASES_lookup%list_elem_of_In.
  pose proof (proj1 (forallb_forall _ _) ALIASES_ok _ H) as Hok.
  unfold alias_ok in Hok. simpl in Hok.
  apply andb_true_iff in Hok as [[H1 H2]%andb_true_iff H3].
  by apply bool_decide_eq_true in H1, H2, H3.
Qed.

Lemma key_facts (K : str) :
  K ∈ PLACEHOLDER_KEYS → key_ok K = true.
Proof.
  intros H%list_elem_of_In.
  exact (proj1 (forallb_forall _ _) PLACEHOLDER_KEYS_ok _ H).
Qed.

(** No canonical key is a proper prefix of another. *)
Lemma keys_prefix_free (K K' : str) :
  K ∈ PLACEHOLDER_KEYS → K' ∈ PLACEHOLDER_KEYS → K `prefix_of` K' → K = K'.
Proof.
  intros HK HK' Hp. pose proof (key_facts K HK) as Hok.
  unfold key_ok in Hok. apply andb_true_iff in Hok as [_ Hok].
  pose proof (proj1 (forallb_forall _ _) Hok K'
                (proj1 (list_elem_of_In _ _) HK')) as H.
  cbv beta in H. apply startswith_prefix in Hp. rewrite Hp in H.
  by apply bool_decide_eq_true in H.
Qed.

(** ** Label normaliser *)

Lemma clean_label_idem (l : str) : clean_label (clean_label l) = clean_label l.
Proof.
  unfold clean_label.
  change (py ":") with [58]. change (py " ") with [32].
  rewrite !replace1_map.
  set (f1 := fun c : N => if c =? FW_COLON then 58 else c).
  set (f2 := fun c : N => if c =? FW_SPACE then 32 else c).
  assert (Hf1 : ∀ c, isspace c = false → isspace (f1 c) = false).
  { intros c Hc. unfold f1. by destruct (c =? FW_COLON). }
  assert (Hf2 : ∀ c, isspace c = false → isspace (f2 c) = false).
  { intros c Hc. unfold f2. destruct (N.eqb_spec c FW_SPACE) as [->|]; done. }
  rewrite (trimmed_strip (map f2 (map f1 (strip l)))).
  2:{ apply trimmed_map, trimmed_map, strip_trimmed; done. }
  rewrite !map_map. apply map_ext. intros c. unfold f1, f2.
  destruct (N.eqb_spec c FW_COLON) as [->|]; [done|].
  destruct (N.eqb_spec c FW_SPACE) as [->|]; [done|].
  destruct (N.eqb_spec c FW_COLON); [done|].
  by destruct (N.eqb_spec c FW_SPACE).
Qed.

(** C7.  [normalize_label] is idempotent: normalising a label that is
    already normalised gives it back, so every output of
    [normalize_label] is a fixed point. *)
Theorem normalize_label_idempotent (label : option str) :
  normalize_label (Some (normalize_label label)) = normalize_label label.
Proof.
  destruct label as [l|]; [|vm_compute; reflexivity].
  unfold normalize_label at 2.
  destruct (ALIASES !! clean_label l) as [k|] eqn:E.
  - pose proof (alias_target _ _ E) as (Hc & Hn & Hk).
    unfold normalize_label. by rewrite Hc, Hn, E.
  - unfold normalize_label. by rewrite clean_label_idem, E.
Qed.

(** C6.  A raw label whose cleaned form is an entry of the alias table
    resolves to the canonical key of that entry: [normalize_label]
    substitutes it, [to_template_key] returns it at once since it is a
    canonical key (no prefix scan takes place), and it is never the
    label that was given. *)
Theorem alias_resolves (label k : str) :
  ALIASES !! clean_label label = Some k →
  to_template_key (Some label) = k
  ∧ normalize_label (Some label) = k
  ∧ k ∈ PLACEHOLDER_KEYS
  ∧ k ≠ label.
Proof.
  intros E. pose proof (alias_target _ _ E) as (Hc & Hn & Hk).
  assert (Hnl : normalize_label (Some label) = k).
  { unfold normalize_label. by rewrite E. }
  repeat split; [|done|done|].
  - unfold to_template_key. rewrite Hnl. by rewrite decide_True.
  - intros ->. rewrite Hc in E. congruence.
Qed.

Lemma alias_resolves_witness :
  to_template_key (Some (py " 現住所（都道府県名）　")) = py "現住所都道府県名"
  ∧ normalize_label (Some (py " 現住所（都道府県名）　")) = py "現住所都道府県名"
  ∧ py "現住所都道府県名" ∈ PLACEHOLDER_KEYS
  ∧ py "現住所都道府県名" ≠ py " 現住所（都道府県名）　".
Proof.
  apply (alias_resolves (py " 現住所（都道府県名）　") (py "現住所都道府県名")).
  vm_compute. reflexivity.
Defined.

Lemma key_shape (K : str) :
  K ∈ PLACEHOLDER_KEYS →
  (∃ c K', K = c :: K' ∧ isspace c = false)
  ∧ rstrip K = K
  ∧ replace1 FW_COLON (py ":") K = K
  ∧ replace1 FW_SPACE (py " ") K = K
  ∧ ∀ a k, (a, k) ∈ ALIASES_items → ¬ K `prefix_of` a.
Proof.
  intros HK. pose proof (key_facts K HK) as Hok. unfold key_ok in Hok.
  repeat (apply andb_true_iff in Hok as [Hok ?]).
  repeat match goal with
         | H : bool_decide _ = true |- _ => apply bool_decide_eq_true in H
         end.
  split_and!; try done.
  - destruct K as [|c K']; [done|].
    match goal with H : lstrip _ = _ |- _ =>
      apply lstrip_fix in H as [?|(c' & s' & Heq & Hc)]; [done|] end.
    injection Heq as <- <-. eauto.
  - intros a k Hin%list_elem_of_In Hp%startswith_prefix.
    match goal with H : forallb _ ALIASES_items = true |- _ =>
      pose proof (proj1 (forallb_forall _ _) H _ Hin) as Hn end.
    simpl in Hn. by rewrite Hp in Hn.
Qed.

Lemma replace1_app (old : N) (new a b : str) :
  replace1 old new (a ++ b) = replace1 old new a ++ replace1 old new b.
Proof. apply flat_map_app. Qed.

(** Cleaning a label that extends a canonical key keeps the key in
    front. *)
Lemma clean_label_key_app (K ext : str) :
  K ∈ PLACEHOLDER_KEYS → ∃ e, clean_label (K ++ ext) = K ++ e.
Proof.
  intros ((c & K' & -> & Hc) & Hr & H1 & H2 & _)%key_shape.
  assert (∃ e, strip ((c :: K') ++ ext) = (c :: K') ++ e) as [e He].
  { unfold strip. simpl lstrip. rewrite Hc.
    change (c :: K' ++ ext) with ((c :: K') ++ ext). rewrite rstrip_app.
    destruct (rstrip ext) as [|d r].
    - exists []. by rewrite Hr, app_nil_r.
    - by exists (d :: r). }
  unfold clean_label. rewrite He, !replace1_app, H1, H2. eauto.
Qed.

Lemma find_first {A} (f : A → bool) (l1 l2 : list A) (x : A) :
  (∀ y, y ∈ l1 → f y = false) → f x = true →
  List.find f (l1 ++ x :: l2) = Some x.
Proof.
  intros H1 Hx. induction l1 as [|y l1 IH]; simpl.
  - by rewrite Hx.
  - rewrite (H1 y) by left. apply IH. intros z Hz. apply H1. by right.
Qed.

Lemma find_none_all {A} (f : A → bool) (l : list A) :
  (∀ y, y ∈ l → f y = false) → List.find f l = None.
Proof.
  induction l as [|y l IH]; intros H; simpl; [done|].
  rewrite (H y) by left. apply IH. intros z Hz. apply H. by right.
Qed.

Lemma not_startswith (s k : str) : ¬ k `prefix_of` s → startswith s k = false.
Proof.
  intros H. destruct (startswith s k) eqn:E; [|done].
  by apply startswith_prefix in E.
Qed.

(** C1.  [to_template_key] returns the normalised label when it is a
    canonical key; otherwise the first canonical key, in the declared
    order of [PLACEHOLDER_KEYS], that is a prefix of the normalised
    label; and the normalised label itself when no key is.  In
    particular a raw label that properly extends the text of a
    canonical key [K] resolves to [K] (no other canonical key can match
    it, since no key is a prefix of another). *)
Theorem to_template_key_spec (label : option str) :
  let lab := normalize_label label in
  (lab ∈ PLACEHOLDER_KEYS → to_template_key label = lab)
  ∧ (lab ∉ PLACEHOLDER_KEYS →
     ∀ l1 k l2, PLACEHOLDER_KEYS = l1 ++ k :: l2 →
       k `prefix_of` lab → (∀ k', k' ∈ l1 → ¬ k' `prefix_of` lab) →
       to_template_key label = k)
  ∧ (lab ∉ PLACEHOLDER_KEYS →
     (∀ k, k ∈ PLACEHOLDER_KEYS → ¬ k `prefix_of` lab) →
     to_template_key label = lab)
  ∧ (∀ K ext, label = Some (K ++ ext) → K ∈ PLACEHOLDER_KEYS → ext ≠ [] →
     to_template_key label = K).
Proof.
  intros lab. split_and!.
  - intros H. unfold to_template_key. fold lab. by rewrite decide_True.
  - intros Hn l1 k l2 Hsplit Hk Hfirst.
    unfold to_template_key. fold lab. rewrite decide_False by done.
    rewrite Hsplit, (find_first _ l1 l2 k); [done| |by apply startswith_prefix].
    intros y Hy. by apply not_startswith, Hfirst.
  - intros Hn Hnone.
    unfold to_template_key. fold lab. rewrite decide_False by done.
    rewrite find_none_all; [done|].
    intros y Hy. by apply not_startswith, Hnone.
  - intros K ext -> HK _.
    destruct (clean_label_key_app K ext HK) as [e He].
    assert (Hlab : lab = K ++ e).
    { unfold lab, normalize_label. rewrite He.
      destruct (ALIASES !! (K ++ e)) as [k|] eqn:E; [|done].
      apply ALIASES_lookup in E.
      apply key_shape in HK as (_ & _ & _ & _ & Ha).
      destruct (Ha _ _ E). by exists e. }
    assert (Hp : K `prefix_of` lab) by (rewrite Hlab; by exists e).
    unfold to_template_key. fold lab. case_decide as Hin.
    + symmetry. by apply keys_prefix_free.
    + destruct (List.find (startswith lab) PLACEHOLDER_KEYS) as [k|] eqn:Ef.
      * apply find_some in Ef as [Hk%list_elem_of_In Hs%startswith_prefix].
        destruct (prefix_weak_total _ _ _ Hs Hp) as [H|H];
          [|symmetry]; by apply keys_prefix_free.
      * apply find_none with (x := K) in Ef; [|by apply list_elem_of_In].
        apply startswith_prefix in Hp. congruence.
Qed.

Lemma to_template_key_spec_witness :
  to_template_key (Some (py "MAIL（個人）")) = py "MAIL".
Proof.
  apply (proj2 (proj2 (proj2
           (to_template_key_spec (Some (py "MAIL（個人）")))))
           (py "MAIL") (py "（個人）")).
  - reflexivity.
  - apply (bool_decide_unpack (py "MAIL" ∈ PLACEHOLDER_KEYS)).
    vm_compute. exact I.
  - discriminate.
Defined.

(** ** Extractors *)

Lemma excel_row_stores : stores excel_row excel_entry.
Proof.
  intros m [|key [|val rest]]; simpl; [done| |].
  - by rewrite andb_false_r.
  - destruct (cell_truthy key && cell_truthy val); [|done].
    by case_decide.
Qed.

Lemma pdf_line_stores : stores pdf_line pdf_entry.
Proof.
  intros m line. unfold pdf_line, pdf_entry.
  destruct (negb (truthy (strip line))); [done|].
  destruct (match_line line) as [[raw_k raw_v]|]; [|done].
  by destruct (bool_decide _ && truthy raw_v).
Qed.

Lemma excel_entry_canonical (row : list cell) (k v : str) :
  excel_entry row = Some (k, v) → k ∈ PLACEHOLDER_KEYS ∧ trimmed v.
Proof.
  destruct row as [|key [|val rest]]; simpl; [done..|].
  destruct (cell_truthy key && cell_truthy val); [|done].
  case_decide; [|done]. intros [= <- <-]. split; [done|apply strip_trimmed].
Qed.

Lemma pdf_entry_canonical (line k v : str) :
  pdf_entry line = Some (k, v) → k ∈ PLACEHOLDER_KEYS ∧ trimmed v.
Proof.
  unfold pdf_entry. destruct (negb (truthy (strip line))); [done|].
  destruct (match_line line) as [[raw_k raw_v]|]; [|done].
  destruct (bool_decide _ && truthy raw_v) eqn:E; [|done].
  apply andb_true_iff in E as [E%bool_decide_eq_true _].
  intros [= <- <-]. split; [done|apply strip_trimmed].
Qed.

Section Loop.
Context {A : Type} (step : gmap str str → A → gmap str str)
        (entry : A → option (str * str)) (Hstep : stores step entry).

(** Every binding of the result was stored by some item. *)
Lemma foldl_stores_lookup (l : list A) (m : gmap str str) (k v : str) :
  foldl step m l !! k = Some v →
  m !! k = Some v ∨ ∃ x, x ∈ l ∧ entry x = Some (k, v).
Proof.
  revert m. induction l as [|x l IH]; intros m; simpl; [by left|].
  intros [H|(y & Hy & He)]%IH.
  - rewrite Hstep in H. destruct (entry x) as [[k' v']|] eqn:E; [|by left].
    destruct (decide (k' = k)) as [->|Hne].
    + rewrite lookup_insert_eq in H. injection H as ->.
      right. exists x. split; [left|done].
    + rewrite lookup_insert_ne in H by done. by left.
  - right. exists y. split; [by right|done].
Qed.

(** The last item that stores under [K] decides the binding of [K]. *)
Lemma foldl_stores_last (l1 l2 : list A) (x : A) (m : gmap str str)
    (K v : str) :
  entry x = Some (K, v) →
  (∀ y, y ∈ l2 → fst <$> entry y ≠ Some K) →
  foldl step m (l1 ++ x :: l2) !! K = Some v.
Proof.
  intros Hx Hl2. rewrite foldl_app. simpl.
  assert (H : step (foldl step m l1) x !! K = Some v).
  { by rewrite Hstep, Hx, lookup_insert_eq. }
  revert H. generalize (step (foldl step m l1) x).
  induction l2 as [|y l2 IH]; intros m' Hm'; simpl; [done|].
  apply IH.
  - intros z Hz. apply Hl2. by right.
  - rewrite Hstep. pose proof (Hl2 y ltac:(left)) as Hy.
    destruct (entry y) as [[k' v']|]; [|done].
    rewrite lookup_insert_ne; [done|]. intros ->. by apply Hy.
Qed.
End Loop.

(** C5.  Closed set: the keys of the mapping an extractor returns are
    canonical keys.  [extract_from_excel] raises only on a workbook
    without a worksheet, [extract_from_pdf] only when the text layer is
    blank and the recognition raises. *)
Theorem extractors_closed_set :
  (∀ wb, match extract_from_excel wb with
         | Some m => ∀ k, is_Some (m !! k) → k ∈ PLACEHOLDER_KEYS
         | None => wb = []
         end)
  ∧ (∀ f, match extract_from_pdf f with
          | Some m => ∀ k, is_Some (m !! k) → k ∈ PLACEHOLDER_KEYS
          | None => ocr f = None ∧ truthy (strip (text_layer f)) = false
          end).
Proof.
  split.
  - intros [|ws rest]; [done|]. simpl. intros k [v Hv].
    apply (foldl_stores_lookup _ _ excel_row_stores) in Hv
      as [Hv|(row & _ & Hrow)]; [by rewrite lookup_empty in Hv|].
    by apply excel_entry_canonical in Hrow as [? _].
  - intros f. unfold extract_from_pdf, pdf_text.
    destruct (truthy (strip (text_layer f))) eqn:Et; simpl.
    + intros k [v Hv].
      apply (foldl_stores_lookup _ _ pdf_line_stores) in Hv
        as [Hv|(line & _ & Hline)]; [by rewrite lookup_empty in Hv|].
      by apply pdf_entry_canonical in Hline as [? _].
    + destruct (ocr f) as [texts|]; simpl; [|done].
      intros k [v Hv].
      apply (foldl_stores_lookup _ _ pdf_line_stores) in Hv
        as [Hv|(line & _ & Hline)]; [by rewrite lookup_empty in Hv|].
      by apply pdf_entry_canonical in Hline as [? _].
Qed.

(** C8.  Each accepted row or line overwrites the binding of its
    canonical key, so the mapping an extractor returns holds, for a key
    met several times, the value of the last accepted occurrence. *)
Theorem last_occurrence_wins :
  (∀ m row K v, excel_entry row = Some (K, v) → excel_row m row = <[K := v]> m)
  ∧ (∀ m line K v, pdf_entry line = Some (K, v) → pdf_line m line = <[K := v]> m)
  ∧ (∀ rows1 row rows2 rest K v,
       excel_entry row = Some (K, v) →
       (∀ r, r ∈ rows2 → fst <$> excel_entry r ≠ Some K) →
       ∃ m, extract_from_excel ((rows1 ++ row :: rows2) :: rest) = Some m
            ∧ m !! K = Some v)
  ∧ (∀ f text lines1 line lines2 K v,
       pdf_text f = Some text →
       splitlines text = lines1 ++ line :: lines2 →
       pdf_entry line = Some (K, v) →
       (∀ l, l ∈ lines2 → fst <$> pdf_entry l ≠ Some K) →
       ∃ m, extract_from_pdf f = Some m ∧ m !! K = Some v).
Proof.
  split_and!.
  - intros m row K v H. by rewrite excel_row_stores, H.
  - intros m line K v H. by rewrite pdf_line_stores, H.
  - intros rows1 row rows2 rest K v Hrow Hlater. eexists. split; [done|].
    by apply (foldl_stores_last _ _ excel_row_stores).
  - intros f text lines1 line lines2 K v Htext Hsplit Hline Hlater.
    unfold extract_from_pdf. rewrite Htext. simpl. eexists. split; [done|].
    rewrite Hsplit. by apply (foldl_stores_last _ _ pdf_line_stores).
Qed.

Lemma last_occurrence_wins_witness :
  (∃ m, extract_from_excel
          [[[CStr (py "MAIL"); CStr (py "a@example.com")];
            [CStr (py "MAIL（個人）"); CStr (py " b@example.com ")];
            [CStr (py "年齢"); CInt 30]]] = Some m
        ∧ m !! py "MAIL" = Some (py "b@example.com"))
  ∧ (∃ m, extract_from_pdf
            {| reader := Some [PageText (Some (py "MAIL: a@example.com"));
                               PageText (Some (py "MAIL：b@example.com"))];
               ocr := None |} = Some m
          ∧ m !! py "MAIL" = Some (py "b@example.com")).
Proof.
  destruct last_occurrence_wins as (_ & _ & Hx & Hp). split.
  - apply (Hx [[CStr (py "MAIL"); CStr (py "a@example.com")]]
              [CStr (py "MAIL（個人）"); CStr (py " b@example.com ")]
              [[CStr (py "年齢"); CInt 30]] []).
    + vm_compute. reflexivity.
    + intros r ->%list_elem_of_singleton. vm_compute. discriminate.
  - apply (Hp _ (py "MAIL: a@example.com" ++ [10] ++ py "MAIL：b@example.com" ++ [10])
              [py "MAIL: a@example.com"] (py "MAIL：b@example.com") []).
    + vm_compute. reflexivity.
    + vm_compute. reflexivity.
    + vm_compute. reflexivity.
    + intros l Hl. by apply elem_of_nil in Hl.
Defined.

(** C4.  A value made of white space only is truthy, passes the guard
    of either extractor and is stored after [strip], that is as the
    empty string: the returned mapping binds [MAIL] to [""]. *)
Theorem blank_value_stored :
  extract_from_excel [[[CStr (py "MAIL"); CStr (py " ")]]]
    = Some {[ py "MAIL" := [] ]}
  ∧ extract_from_pdf
      {| reader := Some [PageText (Some (py "MAIL: "))]; ocr := None |}
    = Some {[ py "MAIL" := [] ]}.
Proof. split; vm_compute; reflexivity. Qed.

(** X14.  The values an extractor stores are stripped strings: no
    white space before or behind. *)
Lemma extractors_values_trimmed :
  (∀ wb m k v, extract_from_excel wb = Some m → m !! k = Some v → trimmed v)
  ∧ (∀ f m k v, extract_from_pdf f = Some m → m !! k = Some v → trimmed v).
Proof.
  split.
  - intros [|ws rest] m k v; [done|]. simpl. intros [= <-] Hv.
    apply (foldl_stores_lookup _ _ excel_row_stores) in Hv
      as [Hv|(row & _ & Hrow)]; [by rewrite lookup_empty in Hv|].
    by apply excel_entry_canonical in Hrow as [_ ?].
  - intros f m k v. unfold extract_from_pdf.
    destruct (pdf_text f) as [text|]; [|done]. simpl. intros [= <-] Hv.
    apply (foldl_stores_lookup _ _ pdf_line_stores) in Hv
      as [Hv|(line & _ & Hline)]; [by rewrite lookup_empty in Hv|].
    by apply pdf_entry_canonical in Hline as [_ ?].
Qed.

(** ** The completed mapping and the report *)

Lemma truthy_false (s : str) : truthy s = false ↔ s = [].
Proof. by destruct s. Qed.

Lemma report_over (extracted : gmap str str) (l : list str) :
  let completed := map (fun k => (k, Some (default [] (extracted !! k)))) l in
  missing_keys (make_report completed) = filter (blank extracted) l
  ∧ filled_keys completed = filter (fun k => ¬ blank extracted k) l.
Proof.
  unfold make_report, filled_keys, blank; simpl.
  induction l as [|k l [IH1 IH2]]; simpl; [done|].
  rewrite !filter_cons. simpl.
  destruct (default [] (extracted !! k)) as [|c s] eqn:E; simpl.
  - by rewrite IH1, IH2.
  - by rewrite IH1, IH2.
Qed.

(** C10.  The report of a completed mapping is consistent: the keys
    that [filled_count] counts and the keys of [missing_keys] together
    are the 41 canonical keys, each exactly once, so the two tallies
    add up to 41; [missing_keys] lists, in the order of
    [PLACEHOLDER_KEYS], the keys whose value is empty. *)
Theorem report_consistent (extracted : gmap str str) :
  let completed := complete extracted in
  let meta := make_report completed in
  filled_count meta = length (filled_keys completed)
  ∧ filled_keys completed ++ missing_keys meta ≡ₚ PLACEHOLDER_KEYS
  ∧ (filled_count meta + length (missing_keys meta) = 41)%nat
  ∧ missing_keys meta = filter (blank extracted) PLACEHOLDER_KEYS
  ∧ missing_keys meta `sublist_of` PLACEHOLDER_KEYS
  ∧ map fst completed = PLACEHOLDER_KEYS.
Proof.
  intros completed meta.
  destruct (report_over extracted PLACEHOLDER_KEYS) as [Hm Hf].
  fold (complete extracted) in Hm, Hf. fold completed in Hm, Hf. fold meta in Hm.
  assert (Hc : filled_count meta = length (filled_keys completed)).
  { unfold meta, make_report, filled_keys. simpl. by rewrite length_map. }
  assert (Hp : filled_keys completed ++ missing_keys meta ≡ₚ PLACEHOLDER_KEYS).
  { rewrite Hm, Hf, (comm (++)). apply filter_app_complement. }
  split_and!; try done.
  - rewrite Hc, <- length_app, Hp. reflexivity.
  - rewrite Hm. apply sublist_filter.
Qed.

(** ** Regular expressions and substitution *)

Lemma token_re_eq (k : str) :
  token_re k = [One (Chr 123); One (Chr 123); Star Spc] ++ lits k ++ tail_re.
Proof. reflexivity. Qed.

Lemma run_lits (k : str) (ps : list piece) (s : str) :
  run (lits k ++ ps) s
  = if startswith s k then run ps (drop (length k) s) else None.
Proof.
  revert s. induction k as [|a k IH]; intros s; simpl; [done|].
  destruct s as [|c s]; [done|]. simpl.
  destruct (c =? a); simpl; [apply IH|done].
Qed.

Lemma star_greedy (a : atom) (k : str → option matched) (w rest : str)
    (r : matched) :
  Forall (fun c => accepts a c = true) w →
  (∀ c rest', rest = c :: rest' → accepts a c = false) →
  k rest = Some r →
  star a k (w ++ rest) = Some r.
Proof.
  intros Hw Hrest Hk. induction Hw as [|c w Hc _ IH]; simpl.
  - destruct rest as [|c rest']; simpl; [done|].
    by rewrite (Hrest c rest').
  - by rewrite Hc, IH.
Qed.

Lemma star_none (a : atom) (k : str → option matched) (s : str) :
  (∀ w u, s = w ++ u → Forall (fun c => accepts a c = true) w → k u = None) →
  star a k s = None.
Proof.
  induction s as [|c s IH]; intros H; simpl.
  - by apply (H [] []).
  - assert (Hk : k (c :: s) = None) by by apply (H [] (c :: s)).
    destruct (accepts a c) eqn:Ec; [|done].
    rewrite IH; [done|]. intros w u -> Hw.
    apply (H (c :: w) u); [done|]. by constructor.
Qed.

Lemma sub_from_skip (ps : list piece) (tpl : list tpiece) (n : nat) (s : str) :
  sub_from ps tpl n s = sub_from ps tpl O (drop n s).
Proof.
  revert n. induction s as [|c s IH]; intros [|n]; simpl; auto.
Qed.

Lemma sub_from_no_occurrence (ps : list piece) (tpl : list tpiece) (s : str) :
  occurs ps s = false → sub_from ps tpl O s = s.
Proof.
  induction s as [|c s IH]; simpl; [done|].
  intros [H1 H2]%orb_false_iff. apply bool_decide_eq_false in H1.
  destruct (run ps (c :: s)) as [[caps rest]|] eqn:E.
  - destruct H1. eauto.
  - by rewrite IH.
Qed.

(** A match at the head is replaced, and the scan goes on behind it. *)
Lemma sub_from_match (ps : list piece) (tpl : list tpiece)
    (m rest : str) (caps : list str) :
  m ≠ [] →
  run ps (m ++ rest) = Some (caps, rest) →
  sub_from ps tpl O (m ++ rest) = expand tpl m ++ sub_from ps tpl O rest.
Proof.
  intros Hm Hrun. destruct m as [|c m]; [done|].
  change ((c :: m) ++ rest) with (c :: (m ++ rest)) in *.
  cbn [sub_from]. rewrite Hrun.
  replace (length (c :: m ++ rest) - length rest)%nat with (S (length m))
    by (simpl; rewrite length_app; lia).
  rewrite sub_from_skip. f_equal.
  - f_equal. change (c :: m ++ rest) with ((c :: m) ++ rest).
    by rewrite take_app_length' by done.
  - f_equal. replace (S (length m) - 1)%nat with (length m) by lia.
    by rewrite drop_app_length.
Qed.

(** A token starts with two braces. *)
Lemma run_token_head (k : str) (c : N) (s : str) :
  c ≠ 123 → run (token_re k) (c :: s) = None.
Proof.
  intros Hc. simpl. by destruct (N.eqb_spec c 123).
Qed.

Lemma occurs_no_lbrace (k : str) (s : str) :
  123 ∉ s → occurs (token_re k) s = false.
Proof.
  induction s as [|c s IH]; [done|].
  intros [Hc Hs]%not_elem_of_cons. cbn [occurs].
  rewrite run_token_head by done. rewrite IH by done.
  by rewrite bool_decide_eq_false_2 by (by intros [? ?]).
Qed.

Lemma occurs_app_no_lbrace (k : str) (pre s : str) :
  123 ∉ pre → occurs (token_re k) (pre ++ s) = occurs (token_re k) s.
Proof.
  induction pre as [|c pre IH]; [done|].
  intros [Hc Hs]%not_elem_of_cons. cbn [app occurs].
  rewrite run_token_head by done. rewrite IH by done.
  by rewrite bool_decide_eq_false_2 by (by intros [? ?]).
Qed.

Lemma sub_from_app_no_lbrace (k : str) (tpl : list tpiece) (pre s : str) :
  123 ∉ pre →
  sub_from (token_re k) tpl O (pre ++ s)
  = pre ++ sub_from (token_re k) tpl O s.
Proof.
  induction pre as [|c pre IH]; [done|].
  intros [Hc Hs]%not_elem_of_cons. cbn [app sub_from].
  rewrite run_token_head by done. by rewrite IH.
Qed.

(** ** Placeholder tokens *)

Lemma special_false (c : N) :
  special c = false →
  isspace c = false ∧ c ≠ 123 ∧ c ≠ 125
  ∧ c ≠ FW_LBRACE ∧ c ≠ FW_RBRACE ∧ c ≠ ZWS.
Proof.
  intros [Hs Hd%bool_decide_eq_false]%orb_false_iff.
  split; [done|]. split_and!; intros ->; apply Hd; set_solver.
Qed.

Lemma isspace_not_special (c : N) :
  isspace c = true →
  c ≠ 123 ∧ c ≠ 125 ∧ c ≠ FW_LBRACE ∧ c ≠ FW_RBRACE ∧ c ≠ ZWS.
Proof. intros H. split_and!; intros ->; vm_compute in H; discriminate. Qed.

Lemma canonical_plain (K : str) : K ∈ PLACEHOLDER_KEYS → plain_key K.
Proof.
  intros H%list_elem_of_In.
  assert (Hall : forallb (fun k => truthy k && forallb (fun c => negb (special c)) k)
                   PLACEHOLDER_KEYS = true) by (vm_compute; reflexivity).
  pose proof (proj1 (forallb_forall _ _) Hall K H) as [H1 H2]%andb_true_iff.
  split; [by destruct K|].
  apply Forall_forall. intros c Hc%list_elem_of_In.
  pose proof (proj1 (forallb_forall _ _) H2 c Hc) as Hn.
  by apply negb_true_iff in Hn.
Qed.

Lemma _normalize_text_app (a b : str) :
  _normalize_text (a ++ b) = _normalize_text a ++ _normalize_text b.
Proof. unfold _normalize_text. by rewrite !replace1_app. Qed.

Lemma _normalize_text_char (c : N) :
  _normalize_text [c]
  = if c =? FW_LBRACE then [123]
    else if c =? FW_RBRACE then [125]
    else if c =? ZWS then [] else [c].
Proof.
  unfold _normalize_text, replace1. simpl.
  destruct (N.eqb_spec c FW_LBRACE) as [->|]; [done|]. simpl.
  destruct (N.eqb_spec c FW_RBRACE) as [->|]; [done|]. simpl.
  by rewrite app_nil_r.
Qed.

Lemma _normalize_text_cons (c : N) (s : str) :
  _normalize_text (c :: s) = _normalize_text [c] ++ _normalize_text s.
Proof. apply (_normalize_text_app [c] s). Qed.

(** Text without full-width braces and zero-width spaces is left alone. *)
Lemma _normalize_text_id (s : str) :
  Forall (fun c => c ∉ [FW_LBRACE; FW_RBRACE; ZWS]) s → _normalize_text s = s.
Proof.
  induction 1 as [|c s Hc _ IH]; [done|].
  rewrite _normalize_text_cons, IH, _normalize_text_char.
  destruct (N.eqb_spec c FW_LBRACE) as [->|]; [set_solver|].
  destruct (N.eqb_spec c FW_RBRACE) as [->|]; [set_solver|].
  destruct (N.eqb_spec c ZWS) as [->|]; [set_solver|done].
Qed.

Lemma _normalize_text_clean (s : str) :
  Forall (fun c => c ∉ [FW_LBRACE; FW_RBRACE; ZWS]) (_normalize_text s).
Proof.
  induction s as [|c s IH]; [constructor|].
  rewrite _normalize_text_cons, _normalize_text_char.
  apply Forall_app. split; [|done].
  destruct (N.eqb_spec c FW_LBRACE) as [->|H1].
  { repeat constructor. apply (bool_decide_unpack _). vm_compute. exact I. }
  destruct (N.eqb_spec c FW_RBRACE) as [->|H2].
  { repeat constructor. apply (bool_decide_unpack _). vm_compute. exact I. }
  destruct (N.eqb_spec c ZWS) as [->|H3]; [constructor|].
  repeat constructor.
  rewrite !not_elem_of_cons. split_and!; [done..|apply not_elem_of_nil].
Qed.

Lemma _normalize_text_idem (s : str) :
  _normalize_text (_normalize_text s) = _normalize_text s.
Proof. apply _normalize_text_id, _normalize_text_clean. Qed.

(** The substitution reads a text through its normal form only. *)
Lemma replace_text_block_normal (raw t : str)
    (mapping : list (str * option str)) :
  _normalize_text raw = t →
  _replace_text_block raw mapping = _replace_text_block t mapping.
Proof.
  intros <-. unfold _replace_text_block. by rewrite _normalize_text_idem.
Qed.

Lemma _normalize_text_spaces (w : str) : spaces w → _normalize_text w = w.
Proof.
  intros H. apply _normalize_text_id. eapply Forall_impl; [exact H|].
  intros c (_ & _ & ? & ? & ?)%isspace_not_special.
  rewrite !not_elem_of_cons. split_and!; [done..|apply not_elem_of_nil].
Qed.

Lemma _normalize_text_plain (k : str) : plain_key k → _normalize_text k = k.
Proof.
  intros [_ H]. apply _normalize_text_id. eapply Forall_impl; [exact H|].
  intros c (_ & _ & _ & ? & ? & ?)%special_false.
  rewrite !not_elem_of_cons. split_and!; [done..|apply not_elem_of_nil].
Qed.

Lemma _normalize_text_token (pre w1 K w2 post : str) :
  spaces w1 → spaces w2 → plain_key K →
  _normalize_text (pre ++ token w1 K w2 ++ post)
  = _normalize_text pre ++ token w1 K w2 ++ _normalize_text post.
Proof.
  intros H1 H2 HK. unfold token.
  rewrite !_normalize_text_app, (_normalize_text_spaces w1),
    (_normalize_text_spaces w2), (_normalize_text_plain K) by done.
  reflexivity.
Qed.

Lemma plain_head (K : str) :
  plain_key K → ∃ c K', K = c :: K' ∧ special c = false ∧ plain_key (c :: K').
Proof.
  intros [Hne Hall]. destruct K as [|c K']; [done|].
  exists c, K'. split_and!; [done| |done]. by inversion Hall.
Qed.

Lemma token_app (w1 K w2 post : str) :
  token w1 K w2 ++ post = 123 :: 123 :: w1 ++ K ++ w2 ++ 125 :: 125 :: post.
Proof. unfold token. by rewrite <- !app_assoc. Qed.

Lemma run_token_re (k s : str) :
  run (token_re k) (123 :: 123 :: s) = star Spc (run (lits k ++ tail_re)) s.
Proof. reflexivity. Qed.

Lemma run_tail_re (s : str) :
  run tail_re s = star Spc (run [One (Chr 125); One (Chr 125)]) s.
Proof. reflexivity. Qed.

Lemma star_stop (a : atom) (k : str → option matched) (c : N) (s : str) :
  accepts a c = false → star a k (c :: s) = k (c :: s).
Proof. intros H. simpl. by rewrite H. Qed.

Lemma run_lits_fail (k : str) (ps : list piece) (u : str) :
  ¬ k `prefix_of` u → run (lits k ++ ps) u = None.
Proof. intros H. by rewrite run_lits, not_startswith. Qed.

Lemma plain_head_space (K rest : str) (d : N) (rest' : str) :
  plain_key K → K ++ rest = d :: rest' → isspace d = false ∧ d ≠ 123 ∧ d ≠ 125.
Proof.
  intros (c & K' & -> & Hc & _)%plain_head [= <- _].
  by apply special_false in Hc as (? & ? & ? & _).
Qed.

(** The pattern of [K] matches a token of [K] and stops behind it. *)
Lemma run_token_match (K w1 w2 post : str) :
  plain_key K → spaces w1 → spaces w2 →
  run (token_re K) (token w1 K w2 ++ post) = Some ([], post).
Proof.
  intros HK Hw1 Hw2. rewrite token_app, run_token_re.
  apply star_greedy; [done| |].
  { intros d rest' Heq. by apply plain_head_space in Heq as [? _]. }
  rewrite run_lits, (proj2 (startswith_prefix _ _)) by (by eexists).
  rewrite drop_app_length, run_tail_re.
  apply star_greedy; [done| |reflexivity].
  by intros d rest' [= <- _].
Qed.

(** The pattern of another plain key does not match a token of [K]. *)
Lemma run_token_other (k K w1 w2 post : str) :
  plain_key k → plain_key K → k ≠ K → spaces w1 → spaces w2 →
  run (token_re k) (token w1 K w2 ++ post) = None.
Proof.
  intros Hk HK Hne Hw1 Hw2.
  rewrite token_app, run_token_re.
  set (R := w2 ++ 125 :: 125 :: post).
  assert (Hmain : run (lits k ++ tail_re) (K ++ R) = None).
  { rewrite run_lits.
    destruct (startswith (K ++ R) k) eqn:E; [|done].
    apply startswith_prefix in E.
    destruct (prefix_weak_total k K (K ++ R) E) as [[y ->]|[x ->]];
      [by eexists| |].
    - rewrite <- app_assoc, drop_app_length.
      destruct y as [|d y]; [by rewrite app_nil_r in Hne|].
      destruct HK as [_ HK]. apply Forall_app in HK as [_ HK].
      inversion HK as [|? ? Hd _]; subst.
      apply special_false in Hd as (Hd & _ & Hd' & _).
      rewrite run_tail_re. change ((d :: y) ++ R) with (d :: y ++ R).
      rewrite star_stop by done. simpl. by destruct (N.eqb_spec d 125).
    - destruct x as [|d x]; [by rewrite app_nil_r in Hne|].
      apply prefix_app_inv in E.
      destruct Hk as [_ Hk]. apply Forall_app in Hk as [_ Hk].
      inversion Hk as [|? ? Hd _]; subst.
      apply special_false in Hd as (Hd & _ & Hd' & _).
      destruct E as [z Hz]. unfold R in Hz.
      destruct w2 as [|e w2]; simpl in Hz; injection Hz as <- _; [done|].
      inversion Hw2; congruence. }
  apply star_none. intros w u Heq Hw.
  destruct (plain_head k Hk) as (a & k' & Hka & Ha & _).
  apply special_false in Ha as (Ha & _).
  apply app_eq_inv in Heq as [(x & -> & ->)|(x & -> & Hx)].
  - destruct x as [|e x]; [done|].
    apply Forall_app in Hw1 as [_ Hw1]. inversion Hw1 as [|? ? He _]; subst.
    apply run_lits_fail. intros [z [= <- _]]. congruence.
  - destruct x as [|e x]; [simpl in Hx; by subst u|].
    apply plain_head_space in Hx as [He _]; [|done].
    apply Forall_app in Hw as [_ Hw]. inversion Hw as [|? ? He' _]; subst.
    simpl in He'. congruence.
Qed.

(** No token starts at the second brace of a token. *)
Lemma run_token_second (k K w1 w2 post : str) :
  plain_key K → spaces w1 →
  run (token_re k) (123 :: w1 ++ K ++ w2 ++ 125 :: 125 :: post) = None.
Proof.
  intros HK Hw1.
  assert (∃ d rest, w1 ++ K ++ w2 ++ 125 :: 125 :: post = d :: rest ∧ d ≠ 123)
    as (d & rest & -> & Hd).
  { destruct w1 as [|e w1].
    - destruct (plain_head K HK) as (c & K' & -> & Hc & _).
      apply special_false in Hc as (_ & Hc & _). by eexists _, _.
    - inversion Hw1 as [|? ? He _]; subst.
      apply isspace_not_special in He as (He & _). by eexists _, _. }
  simpl. by destruct (N.eqb_spec d 123).
Qed.

Lemma token_body_no_lbrace (K w1 w2 post : str) :
  plain_key K → spaces w1 → spaces w2 → 123 ∉ post →
  123 ∉ w1 ++ K ++ w2 ++ 125 :: 125 :: post.
Proof.
  intros [_ HK] Hw1 Hw2 Hpost.
  assert (Hsp : ∀ w, spaces w → 123 ∉ w).
  { intros w Hw Hin. eapply Forall_forall in Hw; [|exact Hin]. done. }
  rewrite !elem_of_app, !elem_of_cons.
  intros [?|[Hin|[?|[?|[?|?]]]]]; try done.
  - by apply (Hsp w1).
  - eapply Forall_forall in HK; [|exact Hin]. done.
  - by apply (Hsp w2).
Qed.

Lemma occurs_token_other (k K w1 w2 post : str) :
  plain_key k → plain_key K → k ≠ K → spaces w1 → spaces w2 → 123 ∉ post →
  occurs (token_re k) (token w1 K w2 ++ post) = false.
Proof.
  intros Hk HK Hne Hw1 Hw2 Hpost.
  pose proof (run_token_other k K w1 w2 post Hk HK Hne Hw1 Hw2) as H0.
  rewrite token_app in *.
  cbn [occurs]. rewrite H0, run_token_second by done.
  rewrite occurs_no_lbrace by by apply token_body_no_lbrace.
  rewrite !bool_decide_eq_false_2; [done|by intros [? ?]..].
Qed.

(** ** Substitution in a block of text *)

Lemma parse_template_literal (v : str) :
  92 ∉ v → parse_template None v = Some (map TLit v).
Proof.
  induction v as [|c v IH]; [done|].
  intros [Hc Hv]%not_elem_of_cons. simpl.
  destruct (N.eqb_spec c 92); [done|]. simpl. by rewrite IH.
Qed.

Lemma expand_literal (v whole : str) : expand (map TLit v) whole = v.
Proof. induction v as [|c v IH]; simpl; [done|]. by rewrite IH. Qed.

Lemma sub_key_noop (t : str) (kv : str * option str) :
  is_Some (parse_template None (repl_of kv.2)) →
  occurs (token_re kv.1) t = false →
  sub_key (Some t) kv = Some t.
Proof.
  intros [tpl Htpl] Hocc. unfold sub_key. simpl. rewrite Htpl. simpl.
  by rewrite sub_from_no_occurrence.
Qed.

Lemma foldl_sub_key_noop (t : str) (mapping : list (str * option str)) :
  valid_values mapping → token_free mapping t →
  foldl sub_key (Some t) mapping = Some t.
Proof.
  intros Hv Hf. induction mapping as [|kv m IH]; cbn [foldl]; [done|].
  inversion Hv; inversion Hf; subst.
  rewrite sub_key_noop by done. by apply IH.
Qed.

Lemma foldl_sub_key_is_Some (t : str) (mapping : list (str * option str)) :
  valid_values mapping → is_Some (foldl sub_key (Some t) mapping).
Proof.
  intros Hv. revert t.
  induction Hv as [|kv m [tpl Htpl] _ IH]; intros t; cbn [foldl].
  - by eexists.
  - unfold sub_key at 2. simpl. rewrite Htpl. simpl. apply IH.
Qed.

Lemma token_free_no_lbrace (mapping : list (str * option str)) (t : str) :
  123 ∉ t → token_free mapping t.
Proof.
  intros H. apply Forall_forall. intros kv _. by apply occurs_no_lbrace.
Qed.

Lemma foldl_sub_key_None (mapping : list (str * option str)) :
  foldl sub_key None mapping = None.
Proof. induction mapping as [|kv m IH]; [done|]. exact IH. Qed.

Lemma foldl_sub_key_valid (t : str) (mapping : list (str * option str)) :
  is_Some (foldl sub_key (Some t) mapping) → valid_values mapping.
Proof.
  revert t. induction mapping as [|kv m IH]; intros t; [constructor|].
  cbn [foldl]. unfold sub_key at 2. simpl.
  destruct (parse_template None (repl_of kv.2)) as [tpl|] eqn:E; simpl.
  - intros H. constructor; [by rewrite E|by eapply IH].
  - rewrite foldl_sub_key_None. by intros [? ?].
Qed.

Lemma literal_valid (mapping : list (str * option str)) :
  Forall (fun kv => 92 ∉ repl_of kv.2) mapping → valid_values mapping.
Proof.
  intros H. eapply Forall_impl; [exact H|]. intros kv Hkv. simpl.
  rewrite parse_template_literal by done. by eexists.
Qed.


(** A backslash that ends the value is no template. *)
Lemma parse_template_trailing (v : str) :
  92 ∉ v → parse_template None (v ++ [92]) = None.
Proof.
  induction v as [|c v IH]; [done|].
  intros [Hc Hv]%not_elem_of_cons. simpl.
  destruct (N.eqb_spec c 92); [done|]. simpl. by rewrite IH.
Qed.

Lemma replace_text_block_trailing (raw : str)
    (mapping : list (str * option str)) (k v : str) :
  (k, Some (v ++ [92])) ∈ mapping → 92 ∉ v →
  _replace_text_block raw mapping = None.
Proof.
  intros Hin Hv.
  destruct (_replace_text_block raw mapping) as [t|] eqn:E; [|done].
  assert (valid_values mapping) as Hvalid
    by (apply (foldl_sub_key_valid (_normalize_text raw));
        unfold _replace_text_block in E; by rewrite E).
  eapply Forall_forall in Hvalid; [|exact Hin]. simpl in Hvalid.
  rewrite parse_template_trailing in Hvalid by done. by destruct Hvalid.
Qed.

(** *** XML text *)

Lemma xml_text_app (a b : str) : xml_text (a ++ b) ↔ xml_text a ∧ xml_text b.
Proof. unfold xml_text. rewrite forallb_app. apply andb_true_iff. Qed.

Lemma xml_text_cons (c : N) (s : str) :
  xml_text (c :: s) ↔ xml_char c = true ∧ xml_text s.
Proof. unfold xml_text. simpl. apply andb_true_iff. Qed.

Lemma xml_text_elem (c : N) (s : str) :
  xml_text s → c ∈ s → xml_char c = true.
Proof.
  intros Hs Hc. induction Hc as [c s|c d s _ IH];
    apply xml_text_cons in Hs as [? ?]; auto.
Qed.

Lemma elem_of_concat (c : N) (l : str) (ls : list str) :
  c ∈ l → l ∈ ls → c ∈ concat ls.
Proof.
  intros Hc Hl. induction Hl as [l ls|l l' ls _ IH]; simpl;
    apply elem_of_app; [left|right]; auto.
Qed.

Lemma control_not_xml (c : N) : control c = true → xml_char c = false.
Proof.
  unfold control, xml_char.
  intros [Hlt Hn%negb_true_iff]%andb_true_iff. rewrite Hn. simpl.
  apply N.ltb_lt in Hlt. by rewrite (proj2 (N.leb_gt 32 c)) by done.
Qed.

Lemma xml_stored (t : str) :
  forallb xml_char (stored t) = forallb xml_char t.
Proof.
  induction t as [|c t IH]; [done|]. simpl. rewrite IH. f_equal.
  by destruct (N.eqb_spec c 13) as [->|].
Qed.

Lemma stored_id (t : str) : 13 ∉ t → stored t = t.
Proof.
  induction t as [|c t IH]; [done|].
  intros [Hc Ht]%not_elem_of_cons. simpl. rewrite IH by done.
  by destruct (N.eqb_spec c 13).
Qed.

Lemma xml_normalize (s : str) : xml_text s → xml_text (_normalize_text s).
Proof.
  induction s as [|c s IH]; [done|]. intros [Hc Hs]%xml_text_cons.
  rewrite _normalize_text_cons, _normalize_text_char.
  apply xml_text_app. split; [|by apply IH].
  destruct (c =? FW_LBRACE); [done|]. destruct (c =? FW_RBRACE); [done|].
  destruct (c =? ZWS); [done|]. by apply xml_text_cons.
Qed.

(** A substitution of XML text into XML text gives XML text. *)
Lemma xml_sub_from (ps : list piece) (v : str) (n : nat) (t : str) :
  xml_text v → xml_text t → xml_text (sub_from ps (map TLit v) n t).
Proof.
  intros Hv. revert n. induction t as [|c t IH]; intros n Ht; [done|].
  apply xml_text_cons in Ht as [Hc Ht]. cbn [sub_from].
  destruct n as [|n]; [|by apply IH].
  destruct (run ps (c :: t)) as [[caps rest]|].
  - rewrite expand_literal. apply xml_text_app. split; [done|by apply IH].
  - apply xml_text_cons. split; [done|by apply IH].
Qed.

Lemma foldl_sub_key_safe (t : str) (mapping : list (str * option str)) :
  safe_values mapping → xml_text t →
  ∃ t', foldl sub_key (Some t) mapping = Some t' ∧ xml_text t'.
Proof.
  intros Hm. revert t.
  induction Hm as [|kv m [Hb Hx] _ IH]; intros t Ht; cbn [foldl].
  - by exists t.
  - unfold sub_key at 2. simpl. rewrite parse_template_literal by done.
    simpl. apply IH. by apply xml_sub_from.
Qed.

Lemma replace_text_block_safe (raw : str) (mapping : list (str * option str)) :
  safe_values mapping → xml_text raw →
  ∃ t', _replace_text_block raw mapping = Some t' ∧ xml_text t'.
Proof.
  intros Hm Hraw. apply foldl_sub_key_safe; [done|]. by apply xml_normalize.
Qed.

(** *** A token in arbitrary text *)

Lemma star_inv (a : atom) (k : str → option matched) (s : str) (r : matched) :
  star a k s = Some r →
  ∃ w u, s = w ++ u ∧ Forall (fun c => accepts a c = true) w ∧ k u = Some r.
Proof.
  induction s as [|c s IH]; simpl.
  - intros H. by exists [], [].
  - destruct (accepts a c) eqn:Ec; [|intros H; by exists [], (c :: s)].
    destruct (star a k s) as [r'|] eqn:E; [|intros H; by exists [], (c :: s)].
    intros [= ->]. destruct (IH eq_refl) as (w & u & -> & Hw & Hk).
    exists (c :: w), u. split_and!; [done|by constructor|done].
Qed.

(** Where the pattern of [k] matches, a token of [k] stands. *)
Lemma run_token_inv (k x : str) (r : matched) :
  run (token_re k) x = Some r →
  ∃ a b y, spaces a ∧ spaces b ∧ x = token a k b ++ y.
Proof.
  destruct x as [|c1 [|c2 x]]; [done|simpl; by destruct (c1 =? 123)|].
  destruct (N.eqb_spec c1 123) as [->|H1];
    [|simpl; by destruct (N.eqb_spec c1 123)].
  destruct (N.eqb_spec c2 123) as [->|H2];
    [|simpl; by destruct (N.eqb_spec c2 123)].
  rewrite run_token_re. intros (a & u & -> & Ha & Hu)%star_inv.
  rewrite run_lits in Hu. destruct (startswith u k) eqn:Es; [|done].
  apply startswith_prefix in Es as [u' ->]. rewrite drop_app_length in Hu.
  rewrite run_tail_re in Hu. apply star_inv in Hu as (b & u2 & -> & Hb & Hu).
  destruct u2 as [|d1 [|d2 y]]; [done|simpl in Hu; by destruct (d1 =? 125)|].
  destruct (N.eqb_spec d1 125) as [->|];
    [|simpl in Hu; by destruct (N.eqb_spec d1 125)].
  destruct (N.eqb_spec d2 125) as [->|];
    [|simpl in Hu; by destruct (N.eqb_spec d2 125)].
  exists a, b, y. split_and!; [done..|]. by rewrite token_app.
Qed.

(** A token put into a text brings no match of another place: if the
    pattern of [k] does not match at the head of [c :: s ++ post], it
    does not match there once a token stands between [s] and [post]. *)
Lemma run_token_insert (k K w1 w2 : str) (c : N) (s post : str) :
  plain_key k → plain_key K → spaces w1 → spaces w2 →
  run (token_re k) (c :: s ++ post) = None →
  run (token_re k) (c :: s ++ token w1 K w2 ++ post) = None.
Proof.
  intros Hk HK Hw1 Hw2 Hno.
  destruct (run (token_re k) (c :: s ++ token w1 K w2 ++ post))
    as [r|] eqn:E; [exfalso|done].
  apply run_token_inv in E as (a & b & y & Ha & Hb & Heq).
  pose proof (token_body_no_lbrace k a b [] Hk Ha Hb ltac:(apply not_elem_of_nil))
    as Hbody.
  assert (Hhit : ∀ z, c :: s = token a k b ++ z → False).
  { intros z Hz.
    change (c :: s ++ post) with ((c :: s) ++ post) in Hno.
    rewrite Hz, <- app_assoc, run_token_match in Hno by done. done. }
  rewrite (token_app a k b y), (token_app w1 K w2 post) in Heq.
  injection Heq as -> Heq.
  destruct s as [|d s].
  - simpl in Heq. injection Heq as Heq.
    apply Hbody. destruct a as [|e a]; simpl in Heq.
    + destruct (plain_head k Hk) as (e & k' & -> & _).
      simpl in Heq. injection Heq as <- _. left.
    + injection Heq as <- _. left.
  - simpl in Heq. injection Heq as -> Heq.
    replace (a ++ k ++ b ++ 125 :: 125 :: y)
      with ((a ++ k ++ b ++ [125; 125]) ++ y) in Heq
      by (by rewrite <- !app_assoc).
    apply app_eq_inv in Heq as [(z & Hs & Hy)|(z & Hz & Ht)].
    + apply (Hhit z). unfold token. rewrite Hs. by rewrite <- !app_assoc.
    + destruct z as [|e z].
      * apply (Hhit []). unfold token. rewrite app_nil_r in Hz.
        rewrite Hz. by rewrite <- !app_assoc, app_nil_r.
      * simpl in Ht. injection Ht as <- _. apply Hbody. rewrite Hz.
        apply elem_of_app. right. left.
Qed.

Lemma occurs_app_r (ps : list piece) (pre post : str) :
  occurs ps (pre ++ post) = false → occurs ps post = false.
Proof.
  induction pre as [|c pre IH]; [done|]. simpl.
  intros [_ H]%orb_false_iff. by apply IH.
Qed.

(** The scan passes over text in front of a token as it does without
    the token. *)
Lemma sub_from_before_token (k K w1 w2 : str) (tpl : list tpiece)
    (pre post : str) :
  plain_key k → plain_key K → spaces w1 → spaces w2 →
  occurs (token_re k) (pre ++ post) = false →
  sub_from (token_re k) tpl O (pre ++ token w1 K w2 ++ post)
  = pre ++ sub_from (token_re k) tpl O (token w1 K w2 ++ post).
Proof.
  intros Hk HK Hw1 Hw2. induction pre as [|c pre IH]; [done|].
  change ((c :: pre) ++ post) with (c :: pre ++ post).
  cbn [occurs]. intros [H1 H2]%orb_false_iff.
  apply bool_decide_eq_false in H1.
  assert (run (token_re k) (c :: pre ++ post) = None) as Hno.
  { destruct (run (token_re k) (c :: pre ++ post)) eqn:E; [|done].
    destruct H1. by eexists. }
  change ((c :: pre) ++ token w1 K w2 ++ post)
    with (c :: pre ++ token w1 K w2 ++ post).
  cbn [sub_from]. rewrite run_token_insert by done.
  by rewrite IH.
Qed.

(** The pattern of another plain key passes over a token. *)
Lemma sub_from_token_other (k K w1 w2 rest : str) (tpl : list tpiece) :
  plain_key k → plain_key K → k ≠ K → spaces w1 → spaces w2 →
  sub_from (token_re k) tpl O (token w1 K w2 ++ rest)
  = token w1 K w2 ++ sub_from (token_re k) tpl O rest.
Proof.
  intros Hk HK Hne Hw1 Hw2.
  pose proof (run_token_other k K w1 w2 rest Hk HK Hne Hw1 Hw2) as H0.
  rewrite token_app in *. cbn [sub_from]. rewrite H0.
  rewrite run_token_second by done.
  replace (w1 ++ K ++ w2 ++ 125 :: 125 :: rest)
    with ((w1 ++ K ++ w2 ++ [125; 125]) ++ rest)
    by (by rewrite <- !app_assoc).
  rewrite sub_from_app_no_lbrace.
  - by rewrite token_app, <- !app_assoc.
  - apply (token_body_no_lbrace K w1 w2 []); try done. apply not_elem_of_nil.
Qed.

(** One key of the mapping on a text that holds a token of [K] and,
    around it, no token of that key: the token of another key stays,
    the token of [K] itself is deleted by a blank value. *)
Lemma sub_key_token (k K w1 w2 : str) (v : option str) (pre post : str) :
  plain_key k → plain_key K → spaces w1 → spaces w2 →
  is_Some (parse_template None (repl_of v)) →
  occurs (token_re k) (pre ++ post) = false →
  (k ≠ K →
   sub_key (Some (pre ++ token w1 K w2 ++ post)) (k, v)
   = Some (pre ++ token w1 K w2 ++ post))
  ∧ (k = K → repl_of v = [] →
     sub_key (Some (pre ++ token w1 K w2 ++ post)) (k, v) = Some (pre ++ post)).
Proof.
  intros Hk HK Hw1 Hw2 [tpl Htpl] Hocc.
  pose proof (occurs_app_r _ _ _ Hocc) as Hpost.
  split.
  - intros Hne. unfold sub_key. cbn [fst snd mbind option_bind].
    rewrite Htpl. cbn [mbind option_bind].
    rewrite sub_from_before_token, sub_from_token_other by done.
    by rewrite sub_from_no_occurrence.
  - intros -> Hv. unfold sub_key. cbn [fst snd mbind option_bind].
    rewrite Hv. cbn [parse_template mbind option_bind].
    rewrite sub_from_before_token by done.
    rewrite (sub_from_match _ _ (token w1 K w2) post []);
      [|done|by apply run_token_match].
    by rewrite sub_from_no_occurrence.
Qed.

Lemma foldl_sub_key_token (mapping : list (str * option str))
    (K w1 w2 pre post : str) :
  plain_key K → spaces w1 → spaces w2 →
  Forall plain_key mapping.*1 → valid_values mapping →
  token_free mapping (pre ++ post) →
  (∀ v, assoc K mapping = Some v → repl_of v = []) →
  foldl sub_key (Some (pre ++ token w1 K w2 ++ post)) mapping
  = Some (match assoc K mapping with
          | Some _ => pre ++ post
          | None => pre ++ token w1 K w2 ++ post
          end).
Proof.
  intros HK Hw1 Hw2.
  induction mapping as [|[k v] m IH]; intros Hkeys Hvalid Hfree Hblank; [done|].
  rewrite fmap_cons in Hkeys. apply Forall_cons in Hkeys as [Hk Hkeys].
  apply Forall_cons in Hvalid as [Hv Hvalid].
  apply Forall_cons in Hfree as [Hf Hfree].
  simpl in Hk, Hv, Hf.
  destruct (sub_key_token k K w1 w2 v pre post Hk HK Hw1 Hw2 Hv Hf)
    as [Hother Hsame].
  cbn [foldl assoc fst snd]. destruct (decide (k = K)) as [->|Hne].
  - rewrite Hsame; [by apply foldl_sub_key_noop|done|].
    apply Hblank. simpl. by rewrite decide_True.
  - rewrite Hother by done. apply IH; try done.
    intros u Hu. apply Hblank. simpl. by rewrite decide_False.
Qed.

Lemma _normalize_text_length (s : str) :
  (length (_normalize_text s) ≤ length s)%nat.
Proof.
  induction s as [|c s IH]; [done|].
  rewrite _normalize_text_cons, length_app, _normalize_text_char.
  destruct (c =? FW_LBRACE); [simpl; lia|].
  destruct (c =? FW_RBRACE); [simpl; lia|].
  destruct (c =? ZWS); simpl; lia.
Qed.

(** *** A text of plain pieces and tokens *)

Lemma sub_from_app_quiet (k : str) (tpl : list tpiece) (pre s : str) :
  quiet pre = true →
  sub_from (token_re k) tpl O (pre ++ s)
  = pre ++ sub_from (token_re k) tpl O s.
Proof.
  induction pre as [|c pre IH]; [done|].
  cbn [quiet]. intros [H1 H2]%andb_true_iff. cbn [app sub_from].
  assert (run (token_re k) (c :: pre ++ s) = None) as ->.
  { destruct (N.eqb_spec c 123) as [->|Hc]; [|by apply run_token_head].
    destruct pre as [|d pre]; [done|]. simpl in H1. simpl.
    by destruct (d =? 123). }
  by rewrite IH.
Qed.

Lemma brace_free_quiet (t : str) : 123 ∉ t → quiet t = true.
Proof.
  induction t as [|c t IH]; [done|].
  intros [Hc Ht]%not_elem_of_cons. cbn [quiet]. rewrite IH by done.
  by destruct (N.eqb_spec c 123).
Qed.

Lemma assoc_app (K : str) (m1 m2 : list (str * option str)) :
  assoc K (m1 ++ m2)
  = match assoc K m1 with Some v => Some v | None => assoc K m2 end.
Proof.
  induction m1 as [|kv m1 IH]; simpl; [done|]. by case_decide.
Qed.

Lemma assoc_Some_elem (K : str) (v : option str)
    (mapping : list (str * option str)) :
  assoc K mapping = Some v → (K, v) ∈ mapping.
Proof.
  induction mapping as [|[k u] m IH]; simpl; [done|].
  case_decide as Hk; simpl in Hk.
  - intros [= <-]. subst k. left.
  - intros H. right. by apply IH.
Qed.

Lemma token_normal (w1 K w2 : str) :
  spaces w1 → plain_key K → spaces w2 →
  _normalize_text (token w1 K w2) = token w1 K w2.
Proof.
  intros H1 HK H2.
  pose proof (_normalize_text_token [] w1 K w2 [] H1 H2 HK) as H.
  by rewrite !app_nil_r in H.
Qed.

(** The text after the keys of [done] were substituted. *)
Lemma segments_normalized (segs : list segment) :
  Forall seg_ok segs →
  _normalize_text (concat (map seg_raw segs))
  = concat (map (seg_filled []) segs).
Proof.
  induction 1 as [|s segs Hs _ IH]; [done|]. simpl.
  rewrite _normalize_text_app, IH. f_equal.
  destruct s as [t|w1 K w2]; [done|].
  destruct Hs as (H1 & HK & H2). by apply token_normal.
Qed.

Lemma segments_step (done : list (str * option str)) (k : str)
    (v : option str) (segs : list segment) :
  Forall seg_ok segs → literal_values done → plain_key k →
  92 ∉ repl_of v →
  sub_key (Some (concat (map (seg_filled done) segs))) (k, v)
  = Some (concat (map (seg_filled (done ++ [(k, v)])) segs)).
Proof.
  intros Hsegs Hdone Hk Hv. unfold sub_key. simpl.
  rewrite parse_template_literal by done. simpl. f_equal.
  induction Hsegs as [|s segs Hs _ IH]; [done|]. cbn [map concat].
  destruct s as [t|w1 K w2]; cbn [seg_filled].
  - by rewrite sub_from_app_quiet, IH.
  - destruct Hs as (H1 & HK & H2). rewrite assoc_app.
    destruct (assoc K done) as [u|] eqn:E.
    + apply assoc_Some_elem in E.
      eapply Forall_forall in Hdone; [|exact E]. simpl in Hdone.
      destruct Hdone as [_ Hu].
      by rewrite sub_from_app_no_lbrace, IH.
    + cbn [assoc fst snd]. case_decide as Heq.
      * subst K.
        rewrite (sub_from_match _ _ (token w1 k w2) _ []);
          [|done|by apply run_token_match].
        by rewrite expand_literal, IH.
      * by rewrite sub_from_token_other, IH.
Qed.

Lemma segments_fold (done mapping : list (str * option str))
    (segs : list segment) :
  Forall seg_ok segs → literal_values done → literal_values mapping →
  Forall plain_key mapping.*1 →
  foldl sub_key (Some (concat (map (seg_filled done) segs))) mapping
  = Some (concat (map (seg_filled (done ++ mapping)) segs)).
Proof.
  intros Hsegs. revert done.
  induction mapping as [|[k v] m IH]; intros done Hdone Hm Hkeys.
  - by rewrite app_nil_r.
  - inversion Hm as [|? ? [Hv Hb] Hm']; subst.
    rewrite fmap_cons in Hkeys. inversion Hkeys as [|? ? Hk Hkeys']; subst.
    cbn [foldl]. rewrite segments_step by done.
    rewrite IH; [by rewrite <- app_assoc| |done|done].
    apply Forall_app. split; [done|]. by repeat constructor.
Qed.

Lemma replace_text_block_segments (mapping : list (str * option str))
    (segs : list segment) :
  Forall seg_ok segs → Forall plain_key mapping.*1 → literal_values mapping →
  _replace_text_block (concat (map seg_raw segs)) mapping
  = Some (concat (map (seg_filled mapping) segs)).
Proof.
  intros Hsegs Hkeys Hlit.
  unfold _replace_text_block. rewrite segments_normalized by done.
  by rewrite (segments_fold [] mapping) by (done || constructor).
Qed.

(** ** Paragraphs *)

Lemma holds_true (b : bool) : b = true → ∃ H, holds b = Some H.
Proof. intros ->. by exists eq_refl. Qed.

Lemma holds_false (b : bool) : b = false → holds b = None.
Proof. by intros ->. Qed.

Lemma set_text_Some (r : Run) (t : str) :
  xml_text t →
  ∃ r', set_text r t = Some r' ∧ text r' = stored t ∧ rPr r' = rPr r.
Proof.
  intros Ht. unfold set_text.
  destruct (holds_true (forallb xml_char (stored t))) as [H ->];
    [by rewrite xml_stored|].
  simpl. by eexists.
Qed.

Lemma set_text_None (r : Run) (t : str) : ¬ xml_text t → set_text r t = None.
Proof.
  intros Ht. unfold set_text. rewrite holds_false; [done|].
  rewrite xml_stored. unfold xml_text in Ht.
  by destruct (forallb xml_char t).
Qed.

Lemma set_text_inv (r : Run) (t : str) (r' : Run) :
  set_text r t = Some r' → text r' = stored t ∧ rPr r' = rPr r.
Proof.
  unfold set_text. destruct (holds _) as [H|]; [|done]. simpl.
  by intros [= <-].
Qed.

Lemma mapM_cleared (rs : paragraph) :
  mapM (fun r => set_text r []) rs = Some (map cleared rs).
Proof.
  induction rs as [|r rs IH]; [done|]. simpl. by rewrite IH.
Qed.

Lemma joined_cleared (rs : paragraph) : joined (map cleared rs) = [].
Proof. induction rs as [|r rs IH]; [done|]. exact IH. Qed.

Lemma rPr_cleared (rs : paragraph) : map rPr (map cleared rs) = map rPr rs.
Proof. induction rs as [|r rs IH]; simpl; [done|]. by rewrite IH. Qed.

Lemma xml_text_joined (p : paragraph) : xml_text (joined p).
Proof.
  induction p as [|r p IH]; [done|]. unfold joined. simpl.
  apply xml_text_app. split; [apply text_xml|exact IH].
Qed.

(** The paragraph after the substitution carries the substituted text,
    as the setter stores it, and keeps its runs and their formatting. *)
Lemma replace_in_paragraph_spec (p : paragraph)
    (mapping : list (str * option str)) (replaced : str) :
  p ≠ [] →
  _replace_text_block (joined p) mapping = Some replaced →
  xml_text replaced →
  ∃ p', _replace_in_paragraph p mapping = Some p'
        ∧ joined p' = written (joined p) replaced ∧ map rPr p' = map rPr p.
Proof.
  intros Hp Hr Hx. destruct p as [|r0 rs]; [done|].
  unfold _replace_in_paragraph. rewrite Hr. simpl. unfold written.
  case_decide as Hd.
  - destruct (set_text_Some r0 replaced Hx) as (r0' & -> & Ht & Hf). simpl.
    rewrite mapM_cleared. simpl. eexists. split; [done|]. split.
    + rewrite decide_False by done. unfold joined. simpl.
      fold (joined (map cleared rs)). by rewrite joined_cleared, app_nil_r.
    + simpl. by rewrite rPr_cleared, Hf.
  - eexists. split; [done|]. split; [|done].
    destruct (decide (replaced = joined (r0 :: rs))); [done|]. by destruct Hd.
Qed.

(** The setter refuses text that is not XML text. *)
Lemma replace_in_paragraph_raises (p : paragraph)
    (mapping : list (str * option str)) (replaced : str) :
  p ≠ [] →
  _replace_text_block (joined p) mapping = Some replaced →
  ¬ xml_text replaced →
  _replace_in_paragraph p mapping = None.
Proof.
  intros Hp Hr Hx. destruct p as [|r0 rs]; [done|].
  unfold _replace_in_paragraph. rewrite Hr. simpl.
  rewrite decide_True by (intros ->; apply Hx, xml_text_joined).
  by rewrite set_text_None.
Qed.

Lemma replace_in_paragraph_shape (p p' : paragraph)
    (mapping : list (str * option str)) :
  _replace_in_paragraph p mapping = Some p' → map rPr p' = map rPr p.
Proof.
  destruct p as [|r0 rs]; [by intros [= <-]|].
  unfold _replace_in_paragraph.
  destruct (_replace_text_block _ _) as [replaced|] eqn:E; [|done]. simpl.
  case_decide; [|by intros [= <-]].
  destruct (set_text r0 replaced) as [r0'|] eqn:E0; [|done]. simpl.
  rewrite mapM_cleared. simpl. intros [= <-]. simpl.
  apply set_text_inv in E0 as [_ ->]. by rewrite rPr_cleared.
Qed.

(** With values that stand for themselves and are XML text, no
    substitution and no setter raises. *)
Lemma replace_in_paragraph_is_Some (p : paragraph)
    (mapping : list (str * option str)) :
  safe_values mapping → is_Some (_replace_in_paragraph p mapping).
Proof.
  intros Hv. destruct p as [|r0 rs]; [by eexists|].
  destruct (replace_text_block_safe (joined (r0 :: rs)) mapping Hv
              (xml_text_joined _)) as (t & Ht & Hx).
  destruct (replace_in_paragraph_spec (r0 :: rs) mapping t ltac:(done) Ht Hx)
    as (p' & -> & _).
  by eexists.
Qed.

(** A paragraph whose text the normalisation leaves alone and in which
    no key of the mapping has a token keeps all its runs. *)
Lemma replace_in_paragraph_unchanged (p : paragraph)
    (mapping : list (str * option str)) :
  valid_values mapping →
  _normalize_text (joined p) = joined p →
  token_free mapping (joined p) →
  _replace_in_paragraph p mapping = Some p.
Proof.
  intros Hv Hn Hf. destruct p as [|r0 rs]; [done|].
  unfold _replace_in_paragraph, _replace_text_block.
  rewrite Hn, foldl_sub_key_noop by done. simpl.
  by rewrite decide_False by (by intros H; apply H).
Qed.


(** ** Documents *)

Lemma foldl_concat {A B} (f : A → B → A) (a : A) (ls : list (list B)) :
  foldl f a (concat ls) = foldl (fun a l => foldl f a l) a ls.
Proof.
  revert a. induction ls as [|l ls IH]; intros a; simpl; [done|].
  by rewrite foldl_app, IH.
Qed.

Lemma foldl_concat_map {A B C} (f : A → B → A) (g : C → list B) (a : A)
    (cs : list C) :
  foldl f a (concat (map g cs)) = foldl (fun a c => foldl f a (g c)) a cs.
Proof.
  revert a. induction cs as [|c cs IH]; intros a; simpl; [done|].
  by rewrite foldl_app, IH.
Qed.

Lemma replace_in_table_visits (mapping : list (str * option str))
    (tree : option (list paragraph)) (t : table) :
  _replace_in_table mapping tree t = foldl (visit mapping) tree (in_table t).
Proof.
  unfold _replace_in_table, in_table. by rewrite !foldl_concat.
Qed.

Lemma replace_in_story_visits (mapping : list (str * option str))
    (tree : option (list paragraph)) (s : story) :
  replace_in_story mapping tree s = foldl (visit mapping) tree (in_story s).
Proof.
  unfold replace_in_story, in_story. rewrite foldl_app, foldl_concat_map.
  generalize (foldl (visit mapping) tree (paragraphs s)).
  induction (tables s) as [|t ts IH]; intros tr; simpl; [done|].
  by rewrite replace_in_table_visits, IH.
Qed.

Lemma replace_in_section_visits (mapping : list (str * option str))
    (tree : option (list paragraph)) (sec : section) :
  replace_in_section mapping tree sec
  = foldl (visit mapping) tree (in_section sec).
Proof.
  unfold replace_in_section, in_section. rewrite foldl_app.
  destruct (header sec) as [h|], (footer sec) as [f|]; simpl;
    by rewrite ?replace_in_story_visits.
Qed.

(** The filler is one pass of [visit] along [visit_order]. *)
Lemma fill_as_visits (doc : document) (mapping : list (str * option str)) :
  fill_docx_placeholders doc mapping
  = x ← foldl (visit mapping) (Some (xml doc)) (visit_order doc);
    Some {| xml := x; body := body doc; sections := sections doc |}.
Proof.
  unfold fill_docx_placeholders, visit_order.
  rewrite foldl_app, foldl_concat_map, replace_in_story_visits.
  f_equal.
  generalize (foldl (visit mapping) (Some (xml doc)) (in_story (body doc))).
  induction (sections doc) as [|sec secs IH]; intros tr; simpl; [done|].
  by rewrite replace_in_section_visits, IH.
Qed.

Lemma foldl_visit_None (mapping : list (str * option str)) (l : list nat) :
  foldl (visit mapping) None l = None.
Proof. induction l as [|i l IH]; [done|]. exact IH. Qed.

Lemma visit_Some (mapping : list (str * option str)) (x x' : list paragraph)
    (i : nat) :
  visit mapping (Some x) i = Some x' →
  (x !! i = None ∧ x' = x)
  ∨ ∃ p p', x !! i = Some p ∧ _replace_in_paragraph p mapping = Some p'
            ∧ x' = <[i := p']> x.
Proof.
  unfold visit. simpl. destruct (x !! i) as [p|] eqn:E.
  - destruct (_replace_in_paragraph p mapping) as [p'|] eqn:Ep; [|done].
    simpl. intros [= <-]. right. by exists p, p'.
  - intros [= <-]. by left.
Qed.

Lemma foldl_visit_is_Some (mapping : list (str * option str))
    (l : list nat) (x : list paragraph) :
  safe_values mapping → is_Some (foldl (visit mapping) (Some x) l).
Proof.
  intros Hv. revert x. induction l as [|i l IH]; intros x; cbn [foldl].
  - by eexists.
  - unfold visit at 2. simpl. destruct (x !! i) as [p|]; [|apply IH].
    destruct (replace_in_paragraph_is_Some p mapping Hv) as [p' ->].
    simpl. apply IH.
Qed.

Lemma same_shape_refl (x : list paragraph) : same_shape x x.
Proof. apply Forall2_same_length_lookup_2; [done|]. by intros i p q -> [= <-]. Qed.

Lemma foldl_visit_shape (mapping : list (str * option str)) (l : list nat)
    (x x' : list paragraph) :
  foldl (visit mapping) (Some x) l = Some x' → same_shape x x'.
Proof.
  revert x. induction l as [|i l IH]; intros x; cbn [foldl].
  - intros [= <-]. apply same_shape_refl.
  - destruct (visit mapping (Some x) i) as [x1|] eqn:E;
      [|by rewrite foldl_visit_None].
    intros H%IH.
    apply visit_Some in E as [[_ ->]|(p & p' & Hp & Hr & ->)]; [done|].
    apply replace_in_paragraph_shape in Hr. unfold same_shape in *.
    apply Forall2_same_length_lookup_2.
    + pose proof (Forall2_length _ _ _ H) as Hl.
      by rewrite length_insert in Hl.
    + intros j q q' Hq Hq'.
      destruct (decide (i = j)) as [->|Hne].
      * rewrite Hp in Hq. injection Hq as <-.
        eapply Forall2_lookup_lr in H as [H1 H2];
          [| apply list_lookup_insert_eq; by eapply lookup_lt_Some | exact Hq'].
        split; [|congruence].
        rewrite <- (length_map rPr p), <- Hr, length_map. exact H1.
      * eapply Forall2_lookup_lr in H;
          [exact H | by rewrite list_lookup_insert_ne | exact Hq'].
Qed.



Lemma PLACEHOLDER_KEYS_NoDup : NoDup PLACEHOLDER_KEYS.
Proof. apply (bool_decide_unpack _). vm_compute. exact I. Qed.

Lemma complete_keys (extracted : gmap str str) :
  (complete extracted).*1 = PLACEHOLDER_KEYS.
Proof. reflexivity. Qed.

Lemma complete_lookup (extracted : gmap str str) (K : str) :
  K ∈ PLACEHOLDER_KEYS →
  (K, Some (default [] (extracted !! K))) ∈ complete extracted.
Proof.
  intros HK. unfold complete.
  change (@map str) with (@fmap list _ str).
  apply list_elem_of_fmap. by exists K.
Qed.

Lemma complete_assoc_over (extracted : gmap str str) (K : str) (l : list str) :
  assoc K (map (fun k => (k, Some (default [] (extracted !! k)))) l)
  = if decide (K ∈ l) then Some (Some (default [] (extracted !! K))) else None.
Proof.
  induction l as [|k l IH]; cbn [map assoc fst snd].
  - by rewrite decide_False by apply not_elem_of_nil.
  - destruct (decide (k = K)) as [->|Hk].
    + by rewrite decide_True by left.
    + rewrite IH. destruct (decide (K ∈ l)) as [Hin|Hin].
      * by rewrite decide_True by by right.
      * rewrite decide_False; [done|]. by intros [->|?]%elem_of_cons.
Qed.

(** Where every paragraph with a run raises, the filler raises as soon
    as the traversal meets one. *)
Lemma foldl_visit_raises (mapping : list (str * option str)) (l : list nat)
    (x : list paragraph) (i : nat) (p : paragraph) :
  (∀ q, q ≠ [] → _replace_in_paragraph q mapping = None) →
  i ∈ l → x !! i = Some p → p ≠ [] →
  foldl (visit mapping) (Some x) l = None.
Proof.
  intros Hall. revert x.
  induction l as [|j l IH]; intros x Hi Hp Hne; [by apply elem_of_nil in Hi|].
  cbn [foldl]. unfold visit at 2. simpl. destruct (x !! j) as [q|] eqn:Ej.
  - destruct q as [|r0 rs].
    + simpl. rewrite list_insert_id by done.
      apply elem_of_cons in Hi as [->|Hi]; [congruence|by apply IH].
    + rewrite Hall by done. simpl. apply foldl_visit_None.
  - apply elem_of_cons in Hi as [->|Hi]; [congruence|by apply IH].
Qed.

(** C2 (amended).  A token of a plain key [K] in the text of a
    paragraph as the filler reads it, that is, normalised (the braces
    may be full-width in the template), for a mapping of plain keys
    whose values are well-formed replacements.

    First, with any text around the token in which no key of the
    mapping has a token of its own (tokens of other keys, single
    braces and the like may be there): when the mapping binds [K] to
    the empty string or to [None], the token is deleted and the text
    around it is kept, as the setter stores it; when the mapping has
    no entry for [K], the token stays where it is.

    Second, with tokens of mapping keys around it too (the paragraph
    is a sequence of tokens and of pieces in which no two opening
    braces meet, the values are XML text without backslash and
    opening brace): the token of a blank [K] is deleted and the pieces
    around it are filled as they are without it.

    Third, the mapping [process] hands to the filler binds every
    canonical key, a key the extraction did not find to the empty
    string, so there the token of such a key is deleted. *)
Theorem blank_placeholder_vanishes :
  (∀ (p : paragraph) (mapping : list (str * option str)) K pre w1 w2 post,
     _normalize_text (joined p) = pre ++ token w1 K w2 ++ post →
     plain_key K → spaces w1 → spaces w2 →
     Forall plain_key mapping.*1 → valid_values mapping →
     token_free mapping (pre ++ post) →
     (∀ v, assoc K mapping = Some v → repl_of v = [] →
        ∃ p', _replace_in_paragraph p mapping = Some p'
              ∧ joined p' = stored (pre ++ post)
              ∧ map rPr p' = map rPr p)
     ∧ (assoc K mapping = None →
        ∃ p', _replace_in_paragraph p mapping = Some p'
              ∧ joined p' = written (joined p) (pre ++ token w1 K w2 ++ post)
              ∧ map rPr p' = map rPr p))
  ∧ (∀ (p : paragraph) (mapping : list (str * option str))
       segs1 w1 K w2 segs2 v,
       _normalize_text (joined p)
       = concat (map seg_raw (segs1 ++ Tok w1 K w2 :: segs2)) →
       Forall seg_ok (segs1 ++ Tok w1 K w2 :: segs2) →
       Forall plain_key mapping.*1 →
       literal_values mapping → safe_values mapping →
       assoc K mapping = Some v → repl_of v = [] →
       ∃ p', _replace_in_paragraph p mapping = Some p'
             ∧ joined p'
               = written (joined p)
                   (concat (map (seg_filled mapping) segs1)
                    ++ concat (map (seg_filled mapping) segs2))
             ∧ map rPr p' = map rPr p)
  ∧ (∀ (extracted : gmap str str) K,
       K ∈ PLACEHOLDER_KEYS → blank extracted K →
       assoc K (complete extracted) = Some (Some [])
       ∧ plain_key K ∧ Forall plain_key (complete extracted).*1).
Proof.
  split_and!.
  - intros p mapping K pre w1 w2 post Hj HK Hw1 Hw2 Hkeys Hvalid Hfree.
    assert (Hp : p ≠ []) by (intros ->; destruct pre; discriminate).
    pose proof (xml_normalize _ (xml_text_joined p)) as Hx. rewrite Hj in Hx.
    apply xml_text_app in Hx as [Hx1 Hx2].
    pose proof Hx2 as Hx3. apply xml_text_app in Hx3 as [_ Hx3].
    assert (Hfold : (∀ v, assoc K mapping = Some v → repl_of v = []) →
              _replace_text_block (joined p) mapping
              = Some (match assoc K mapping with
                      | Some _ => pre ++ post
                      | None => pre ++ token w1 K w2 ++ post
                      end)).
    { intros Hb. unfold _replace_text_block. rewrite Hj.
      by apply foldl_sub_key_token. }
    split.
    + intros v Hv Hb.
      assert (Hr : _replace_text_block (joined p) mapping = Some (pre ++ post)).
      { rewrite Hfold, Hv; [done|]. intros u Hu. congruence. }
      destruct (replace_in_paragraph_spec p mapping _ Hp Hr)
        as (p' & Hp' & Ht & Hf); [by apply xml_text_app|].
      exists p'. split_and!; [done| |done]. rewrite Ht. unfold written.
      rewrite decide_False; [done|].
      intros Heq. pose proof (_normalize_text_length (joined p)) as Hlen.
      rewrite Hj, <- Heq in Hlen. unfold token in Hlen.
      rewrite !length_app in Hlen. simpl in Hlen. lia.
    + intros Hnone.
      assert (Hr : _replace_text_block (joined p) mapping
                   = Some (pre ++ token w1 K w2 ++ post)).
      { rewrite Hfold, Hnone; [done|]. intros u Hu. congruence. }
      apply replace_in_paragraph_spec; [done|done|].
      by apply xml_text_app.
  - intros p mapping segs1 w1 K w2 segs2 v Hj Hsegs Hkeys Hlit Hsafe Hv Hb.
    assert (Hp : p ≠ []).
    { intros ->. rewrite map_app, concat_app in Hj.
      destruct (concat (map seg_raw segs1)); discriminate. }
    destruct (replace_text_block_safe (joined p) mapping Hsafe
                (xml_text_joined p)) as (t & Ht & Hx).
    assert (t = concat (map (seg_filled mapping) segs1)
                ++ concat (map (seg_filled mapping) segs2)) as ->.
    { rewrite (replace_text_block_normal _ _ _ Hj) in Ht.
      rewrite replace_text_block_segments in Ht by done.
      injection Ht as <-. rewrite map_app, concat_app.
      cbn [map concat seg_filled]. by rewrite Hv, Hb. }
    by apply replace_in_paragraph_spec.
  - intros extracted K HK Hb. split_and!.
    + unfold complete. rewrite complete_assoc_over, decide_True by done.
      unfold blank in Hb. by rewrite Hb.
    + by apply canonical_plain.
    + rewrite complete_keys. apply Forall_forall. apply canonical_plain.
Qed.

Lemma blank_placeholder_vanishes_witness :
  ∃ p', _replace_in_paragraph
          [Run_of (py "{{住所}} ｛｛ MAIL") 1 eq_refl;
           Run_of (py "｝｝様") 2 eq_refl]
          (complete ∅) = Some p'
        ∧ joined p' = stored (py "{{住所}} " ++ py "様")
        ∧ map rPr p' = [1; 2].
Proof.
  refine (proj1 (proj1 blank_placeholder_vanishes
            [Run_of (py "{{住所}} ｛｛ MAIL") 1 eq_refl;
             Run_of (py "｝｝様") 2 eq_refl]
            (complete ∅) (py "MAIL") (py "{{住所}} ") (py " ") [] (py "様")
            _ _ _ _ _ _ _) (Some []) _ _).
  - vm_compute. reflexivity.
  - apply canonical_plain. apply (bool_decide_unpack _). vm_compute. exact I.
  - apply (bool_decide_unpack _). vm_compute. exact I.
  - constructor.
  - rewrite complete_keys. apply Forall_forall, canonical_plain.
  - apply (bool_decide_unpack _). vm_compute. exact I.
  - apply (bool_decide_unpack _). vm_compute. exact I.
  - vm_compute. reflexivity.
  - reflexivity.
Defined.

(** C2, as stated, fails.  A key without an entry in the mapping keeps
    its token: with a mapping that binds only [候補者氏名], the
    paragraph [{{MAIL}}様] is returned as it is.  And the text around
    a deleted token is not always kept: in [{{郵便番号{{MAIL}}}}] the
    deletion of the blank [{{MAIL}}] leaves a token of the next key,
    which is then substituted. *)
Lemma missing_entry_keeps_token :
  let mapping := [(py "候補者氏名", Some (py "山田太郎"))] in
  let p := [Run_of (py "{{MAIL}}様") 1 eq_refl] in
  py "MAIL" ∈ PLACEHOLDER_KEYS
  ∧ (py "MAIL" ∉ mapping.*1)
  ∧ _replace_text_block (py "{{MAIL}}様") mapping = Some (py "{{MAIL}}様")
  ∧ _replace_in_paragraph p mapping = Some p
  ∧ joined p ≠ py "様"
  ∧ _replace_text_block (py "{{郵便番号{{MAIL}}}}")
      (complete {[ py "郵便番号" := py "100-0001" ]})
    = Some (py "100-0001").
Proof.
  split_and!.
  - apply (bool_decide_unpack _). vm_compute. exact I.
  - apply (bool_decide_unpack _). vm_compute. exact I.
  - vm_compute. reflexivity.
  - vm_compute. reflexivity.
  - discriminate.
  - vm_compute. reflexivity.
Qed.

(** With values that stand for themselves and are XML text the filler
    returns. *)
Lemma fill_is_Some (doc : document) (mapping : list (str * option str)) :
  safe_values mapping → is_Some (fill_docx_placeholders doc mapping).
Proof.
  intros Hv. rewrite fill_as_visits.
  destruct (foldl_visit_is_Some mapping (visit_order doc) (xml doc) Hv)
    as [x ->].
  by eexists.
Qed.




(** ** Unrecognised extensions *)

Lemma blanks_safe : safe_values blanks.
Proof.
  apply Forall_forall. intros kv [k [-> _]]%list_elem_of_fmap. simpl.
  split; [apply not_elem_of_nil|done].
Qed.

(** C9.  For a suffix other than [.xlsx], [.xlsm] and [.pdf] no
    extractor runs: the extracted mapping is empty, the completed
    mapping binds each canonical key, in order, to the empty string,
    and with the template present [process] fills it with these blanks
    and reports no filled key and every key missing. *)
Theorem unrecognised_extension (suffix : str) (f : upload) (tpl : document) :
  suffix ∉ [py ".xlsx"; py ".xlsm"; py ".pdf"] →
  extract suffix f = Some ∅
  ∧ complete ∅ = blanks
  ∧ ∃ out, fill_docx_placeholders tpl blanks = Some out
           ∧ process suffix f (Some tpl)
             = Done blanks out
                 {| filled_count := 0; missing_keys := PLACEHOLDER_KEYS |}.
Proof.
  intros [H1 [H2 [H3 _]%not_elem_of_cons]%not_elem_of_cons]%not_elem_of_cons.
  assert (He : extract suffix f = Some ∅).
  { unfold extract.
    rewrite bool_decide_eq_false_2
      by (rewrite !not_elem_of_cons; split_and!; [done..|apply not_elem_of_nil]).
    by rewrite bool_decide_eq_false_2. }
  assert (Hc : complete ∅ = blanks) by reflexivity.
  split_and!; [done..|].
  destruct (fill_is_Some tpl blanks blanks_safe) as [out Ho].
  exists out. split; [done|].
  unfold process. by rewrite He, Hc, Ho.
Qed.

Lemma unrecognised_extension_witness :
  extract (py ".docx") {| workbook := None; pdf := {| reader := None; ocr := None |} |}
  = Some ∅
  ∧ complete ∅ = blanks
  ∧ ∃ out, fill_docx_placeholders sample_template blanks = Some out
           ∧ process (py ".docx")
               {| workbook := None; pdf := {| reader := None; ocr := None |} |}
               (Some sample_template)
             = Done blanks out
                 {| filled_count := 0; missing_keys := PLACEHOLDER_KEYS |}.
Proof.
  apply (unrecognised_extension (py ".docx")).
  apply (bool_decide_unpack _). vm_compute. exact I.
Defined.

(** ** Scenarios *)

Example scenario_spreadsheet :
  complete <$> extract_from_excel
    [[[CStr (py "候補者氏名"); CStr (py "山田太郎")];
      [CStr (py "MAIL"); CStr (py "taro@example.com")]]]
  = Some (map (fun k =>
            (k, Some (if decide (k = py "候補者氏名") then py "山田太郎"
                      else if decide (k = py "MAIL") then py "taro@example.com"
                      else [])))
          PLACEHOLDER_KEYS).
Proof. vm_compute. reflexivity. Qed.

Example scenario_pdf_alias :
  extract_from_pdf
    {| reader := Some [PageText (Some (py "現住所（都道府県名）：東京都"))];
       ocr := None |}
  = Some {[ py "現住所都道府県名" := py "東京都" ]}.
Proof. vm_compute. reflexivity. Qed.

Example scenario_ocr_fallback :
  extract_from_pdf
    {| reader := None; ocr := Some [py "年齢: 30"; py "MAIL ： a@b.jp "] |}
  = Some {[ py "年齢" := py "30"; py "MAIL" := py "a@b.jp" ]}
  ∧ extract_from_pdf {| reader := Some [PageText None]; ocr := None |} = None.
Proof. split; vm_compute; reflexivity. Qed.

Example scenario_fill_name :
  _replace_text_block (py "{{候補者氏名}}様")
    (complete {[ py "候補者氏名" := py "山田太郎" ]})
  = Some (py "山田太郎様").
Proof. vm_compute. reflexivity. Qed.

Example scenario_full_width_braces :
  _replace_text_block (py "｛｛MAIL｝｝") (complete {[ py "MAIL" := py "a@b.jp" ]})
  = _replace_text_block (py "{{MAIL}}") (complete {[ py "MAIL" := py "a@b.jp" ]})
  ∧ _replace_text_block (py "｛｛MAIL｝｝") (complete {[ py "MAIL" := py "a@b.jp" ]})
    = Some (py "a@b.jp").
Proof. split; vm_compute; reflexivity. Qed.

Example scenario_unknown_token :
  _replace_text_block (py "{{住所}} {{MAIL}}") (complete ∅)
  = Some (py "{{住所}} ").
Proof. vm_compute. reflexivity. Qed.

Example scenario_template_escape :
  _replace_text_block (py "{{MAIL}}") [(py "MAIL", Some [97; 92; 110; 98])]
  = Some [97; 10; 98]
  ∧ _replace_text_block (py "x") [(py "MAIL", Some [67; 58; 92])] = None.
Proof. split; vm_compute; reflexivity. Qed.

Example scenario_blank_tokens :
  _replace_text_block (py "{{住所}} ｛｛MAIL｝｝様") (complete ∅)
  = Some (py "{{住所}} 様")
  ∧ _replace_text_block (py "{x} {{MAIL}}様") (complete ∅) = Some (py "{x} 様")
  ∧ _replace_text_block (py "{{年齢}}{{MAIL}}") (complete {[ py "年齢" := py "30" ]})
    = Some (py "30").
Proof. split_and!; vm_compute; reflexivity. Qed.

(** A value with a control character, and one with a carriage return. *)
Example scenario_setter :
  _replace_in_paragraph [Run_of (py "{{MAIL}}") 1 eq_refl]
    [(py "MAIL", Some [97; 1; 98])] = None
  ∧ joined <$> _replace_in_paragraph [Run_of (py "{{MAIL}}x") 1 eq_refl]
                 [(py "MAIL", Some [97; 13; 98])]
    = Some [97; 10; 98; 120].
Proof. split; vm_compute; reflexivity. Qed.

Example scenario_process_raises :
  process (py ".pdf")
    {| workbook := None;
       pdf := {| reader := Some [PageText (Some (py "MAIL: a" ++ [1] ++ py "b"))];
                 ocr := None |} |}
    (Some sample_template)
  = FillRaised.
Proof. vm_compute. reflexivity. Qed.

(** ** Label normaliser: fixed points and white space *)

(** A normalised label is left alone by [normalize_label]. *)
Lemma normalize_label_fix (label : option str) :
  normalize_label (Some (normalize_label label)) = normalize_label label.
Proof.
  destruct label as [l|]; [|vm_compute; reflexivity].
  unfold normalize_label at 2.
  destruct (ALIASES !! clean_label l) as [k|] eqn:E.
  - pose proof (alias_target _ _ E) as (Hc & Hn & Hk).
    unfold normalize_label. by rewrite Hc, Hn, E.
  - unfold normalize_label. by rewrite clean_label_idem, E.
Qed.

Lemma canonical_normalized (K : str) :
  K ∈ PLACEHOLDER_KEYS → normalize_label (Some K) = K.
Proof.
  intros HK.
  destruct (clean_label_key_app K [] HK) as [e He].
  pose proof (key_shape K HK) as ((c & K' & HKc & Hc) & Hr & H1 & H2 & Ha).
  assert (Hclean : clean_label K = K).
  { unfold clean_label, strip. rewrite HKc. simpl lstrip. rewrite Hc.
    rewrite <- HKc. by rewrite Hr, H1, H2. }
  unfold normalize_label. rewrite Hclean.
  destruct (ALIASES !! K) as [k|] eqn:E; [|done].
  apply ALIASES_lookup in E. by destruct (Ha _ _ E).
Qed.

Lemma canonical_resolves (K : str) :
  K ∈ PLACEHOLDER_KEYS → to_template_key (Some K) = K.
Proof.
  intros HK. unfold to_template_key.
  rewrite canonical_normalized by done. by rewrite decide_True.
Qed.

(** X1.  Resolving is idempotent: what [to_template_key] returns
    resolves to itself, and so does every canonical key. *)
Theorem to_template_key_idempotent :
  (∀ label, to_template_key (Some (to_template_key label))
            = to_template_key label)
  ∧ (∀ K, K ∈ PLACEHOLDER_KEYS →
       normalize_label (Some K) = K ∧ to_template_key (Some K) = K).
Proof.
  split.
  - intros label.
    assert (to_template_key label ∈ PLACEHOLDER_KEYS
            ∨ to_template_key label = normalize_label label) as [H|H].
    { unfold to_template_key. case_decide as Hin; [by left|].
      destruct (List.find _ PLACEHOLDER_KEYS) as [k|] eqn:Ef; [|by right].
      left. by apply find_some in Ef as [Hk%list_elem_of_In _]. }
    + by apply canonical_resolves.
    + rewrite H. unfold to_template_key at 1.
      by rewrite normalize_label_fix.
  - intros K HK. split; [by apply canonical_normalized|].
    by apply canonical_resolves.
Qed.

Lemma lstrip_spaces_app (w s : str) : spaces w → lstrip (w ++ s) = lstrip s.
Proof. induction 1 as [|c w Hc _ IH]; simpl; [done|]. by rewrite Hc. Qed.

Lemma rstrip_spaces (w : str) : spaces w → rstrip w = [].
Proof.
  induction 1 as [|c w Hc _ IH]; simpl; [done|]. by rewrite IH, Hc.
Qed.

Lemma lstrip_app_spaces (s w : str) :
  spaces w → rstrip (lstrip (s ++ w)) = rstrip (lstrip s).
Proof.
  intros Hw. induction s as [|c s IH]; simpl.
  - rewrite <- (app_nil_r w), lstrip_spaces_app by done. done.
  - destruct (isspace c); [done|].
    change (c :: s ++ w) with ((c :: s) ++ w).
    by rewrite rstrip_app, rstrip_spaces.
Qed.

Lemma strip_spaces_around (w1 l w2 : str) :
  spaces w1 → spaces w2 → strip (w1 ++ l ++ w2) = strip l.
Proof.
  intros H1 H2. unfold strip.
  by rewrite lstrip_spaces_app, lstrip_app_spaces.
Qed.

(** X2.  White space around a label does not count: the label resolves
    as without it.  A label of white space only resolves to the empty
    string, which is no canonical key. *)
Theorem label_whitespace_ignored (w1 l w2 : str) :
  spaces w1 → spaces w2 →
  normalize_label (Some (w1 ++ l ++ w2)) = normalize_label (Some l)
  ∧ to_template_key (Some (w1 ++ l ++ w2)) = to_template_key (Some l)
  ∧ (l = [] → to_template_key (Some (w1 ++ l ++ w2)) = []
              ∧ to_template_key (Some (w1 ++ l ++ w2)) ∉ PLACEHOLDER_KEYS).
Proof.
  intros H1 H2.
  assert (Hn : normalize_label (Some (w1 ++ l ++ w2)) = normalize_label (Some l)).
  { unfold normalize_label, clean_label. by rewrite strip_spaces_around. }
  assert (Ht : to_template_key (Some (w1 ++ l ++ w2)) = to_template_key (Some l)).
  { unfold to_template_key. by rewrite Hn. }
  split_and!; [done..|].
  intros ->. rewrite Ht. split; [vm_compute; reflexivity|].
  apply (bool_decide_unpack _). vm_compute. exact I.
Qed.

Lemma label_whitespace_ignored_witness :
  normalize_label (Some (py "  " ++ py "MAIL" ++ py "　"))
  = normalize_label (Some (py "MAIL"))
  ∧ to_template_key (Some (py "  " ++ py "MAIL" ++ py "　"))
    = to_template_key (Some (py "MAIL"))
  ∧ (py "MAIL" = [] →
     to_template_key (Some (py "  " ++ py "MAIL" ++ py "　")) = []
     ∧ to_template_key (Some (py "  " ++ py "MAIL" ++ py "　"))
       ∉ PLACEHOLDER_KEYS).
Proof.
  apply (label_whitespace_ignored (py "  ") (py "MAIL") (py "　")).
  - apply (bool_decide_unpack _). vm_compute. exact I.
  - apply (bool_decide_unpack _). vm_compute. exact I.
Defined.

Lemma to_template_key_idempotent_witness :
  normalize_label (Some (py "MAIL")) = py "MAIL"
  ∧ to_template_key (Some (py "MAIL")) = py "MAIL".
Proof.
  apply (proj2 to_template_key_idempotent (py "MAIL")).
  apply (bool_decide_unpack _). vm_compute. exact I.
Defined.

(** ** Extractors: how rows compose *)

Section Compose.
Context {A : Type} (step : gmap str str → A → gmap str str)
        (entry : A → option (str * str)) (Hstep : stores step entry).

(** Running the loop from [m] is running it from the empty mapping and
    keeping the bindings of [m] for the keys the loop did not store. *)
Lemma foldl_stores_union (l : list A) (m : gmap str str) :
  foldl step m l = foldl step ∅ l ∪ m.
Proof.
  revert m. induction l as [|x l IH]; intros m; simpl.
  - by rewrite (left_id_L ∅ (∪)).
  - rewrite (IH (step m x)), (IH (step ∅ x)), !Hstep.
    destruct (entry x) as [[k v]|].
    + rewrite (insert_union_singleton_l m), insert_empty.
      by rewrite (assoc_L (∪)).
    + by rewrite (right_id_L ∅ (∪)).
Qed.

Lemma foldl_stores_app (l1 l2 : list A) :
  foldl step ∅ (l1 ++ l2) = foldl step ∅ l2 ∪ foldl step ∅ l1.
Proof. by rewrite foldl_app, foldl_stores_union. Qed.

(** A key is bound by the loop exactly when some item stores it. *)
Lemma foldl_stores_dom (l : list A) (K : str) :
  is_Some (foldl step ∅ l !! K) ↔ ∃ x v, x ∈ l ∧ entry x = Some (K, v).
Proof.
  split.
  - intros [v Hv].
    apply (foldl_stores_lookup step entry Hstep) in Hv
      as [Hv|(x & Hx & He)]; [by rewrite lookup_empty in Hv|]. eauto.
  - induction l as [|x l IH] using rev_ind.
    + intros (x & v & Hx & _). by apply elem_of_nil in Hx.
    + intros (y & v & Hy & He). rewrite foldl_app. simpl. rewrite Hstep.
      destruct (entry x) as [[k u]|] eqn:Ex.
      * destruct (decide (k = K)) as [->|Hne].
        -- rewrite lookup_insert_eq. by eexists.
        -- rewrite lookup_insert_ne by done. apply IH.
           apply elem_of_app in Hy as [Hy|Hy%list_elem_of_singleton];
             [eauto|]. subst y. congruence.
      * apply IH.
        apply elem_of_app in Hy as [Hy|Hy%list_elem_of_singleton];
          [eauto|]. subst y. congruence.
Qed.
End Compose.

(** X3.  The rows of a worksheet compose: extracting from [rows1]
    followed by [rows2] gives the mapping of [rows2] completed by the
    bindings of [rows1] for the keys [rows2] does not bind.  The other
    worksheets are not read. *)
Theorem excel_rows_compose (rows1 rows2 : list (list cell))
    (rest : list (list (list cell))) :
  extract_from_excel ((rows1 ++ rows2) :: rest)
  = m2 ← extract_from_excel [rows2];
    m1 ← extract_from_excel [rows1];
    Some (m2 ∪ m1).
Proof.
  unfold extract_from_excel. simpl.
  by rewrite (foldl_stores_app _ _ excel_row_stores).
Qed.

(** X4.  A canonical key is bound in the extracted mapping exactly when
    some accepted row (some accepted line) resolves to it, and the
    bound value is the one such a row or line stores. *)
Theorem extracted_bindings :
  (∀ rows rest m K,
     extract_from_excel (rows :: rest) = Some m →
     (is_Some (m !! K) ↔ ∃ row v, row ∈ rows ∧ excel_entry row = Some (K, v))
     ∧ (∀ v, m !! K = Some v → ∃ row, row ∈ rows ∧ excel_entry row = Some (K, v)))
  ∧ (∀ f text m K,
       pdf_text f = Some text →
       extract_from_pdf f = Some m →
       (is_Some (m !! K)
        ↔ ∃ line v, line ∈ splitlines text ∧ pdf_entry line = Some (K, v))
       ∧ (∀ v, m !! K = Some v →
            ∃ line, line ∈ splitlines text ∧ pdf_entry line = Some (K, v))).
Proof.
  split.
  - intros rows rest m K [= <-]. split.
    + apply (foldl_stores_dom _ _ excel_row_stores).
    + intros v Hv.
      apply (foldl_stores_lookup _ _ excel_row_stores) in Hv
        as [Hv|(x & Hx & He)]; [by rewrite lookup_empty in Hv|]. eauto.
  - intros f text m K Htext. unfold extract_from_pdf. rewrite Htext. simpl.
    intros [= <-]. split.
    + apply (foldl_stores_dom _ _ pdf_line_stores).
    + intros v Hv.
      apply (foldl_stores_lookup _ _ pdf_line_stores) in Hv
        as [Hv|(x & Hx & He)]; [by rewrite lookup_empty in Hv|]. eauto.
Qed.

Lemma extracted_bindings_witness :
  (is_Some (({[ py "MAIL" := py "a@b.jp" ]} : gmap str str) !! py "MAIL")
   ↔ ∃ row v, row ∈ [[CStr (py "MAIL"); CStr (py "a@b.jp")]]
              ∧ excel_entry row = Some (py "MAIL", v))
  ∧ (∀ v, ({[ py "MAIL" := py "a@b.jp" ]} : gmap str str) !! py "MAIL" = Some v →
       ∃ row, row ∈ [[CStr (py "MAIL"); CStr (py "a@b.jp")]]
              ∧ excel_entry row = Some (py "MAIL", v)).
Proof.
  apply (proj1 extracted_bindings [[CStr (py "MAIL"); CStr (py "a@b.jp")]] []).
  vm_compute. reflexivity.
Defined.

(** ** PDF extractor: the text layer and the fallback *)

Lemma read_pages_cut (ps1 ps2 : list page) :
  read_pages (ps1 ++ PageRaises :: ps2) = read_pages ps1.
Proof.
  induction ps1 as [|[t|] ps1 IH]; simpl; [done| |done]. by rewrite IH.
Qed.

(** X5.  The text layer and the fallback.  A page whose text
    extraction raises ends the text layer: the pages read before it
    count, the pages behind it are not read.  A reader that cannot be
    opened gives the same as a document without pages.  When the text
    layer is not blank the recognition is not consulted; when it is
    blank the result is that of the recognised text, and the extractor
    raises exactly when the recognition does. *)
Theorem pdf_text_layer_and_fallback :
  (∀ ps1 ps2 o,
     extract_from_pdf {| reader := Some (ps1 ++ PageRaises :: ps2); ocr := o |}
     = extract_from_pdf {| reader := Some ps1; ocr := o |})
  ∧ (∀ o, extract_from_pdf {| reader := None; ocr := o |}
          = extract_from_pdf {| reader := Some []; ocr := o |})
  ∧ (∀ r o1 o2,
       truthy (strip (text_layer {| reader := r; ocr := o1 |})) = true →
       extract_from_pdf {| reader := r; ocr := o1 |}
       = extract_from_pdf {| reader := r; ocr := o2 |}
       ∧ is_Some (extract_from_pdf {| reader := r; ocr := o1 |}))
  ∧ (∀ r o,
       truthy (strip (text_layer {| reader := r; ocr := o |})) = false →
       extract_from_pdf {| reader := r; ocr := o |}
       = (fun texts => foldl pdf_line ∅ (splitlines (join [10] texts))) <$> o).
Proof.
  split_and!.
  - intros ps1 ps2 o. unfold extract_from_pdf, pdf_text, text_layer. simpl.
    by rewrite read_pages_cut.
  - done.
  - intros r o1 o2 Ht. unfold extract_from_pdf, pdf_text in *.
    change (text_layer {| reader := r; ocr := o2 |})
      with (text_layer {| reader := r; ocr := o1 |}).
    rewrite Ht. simpl. split; [done|by eexists].
  - intros r o Ht. unfold extract_from_pdf, pdf_text. rewrite Ht. simpl.
    by destruct o.
Qed.

Lemma pdf_text_layer_and_fallback_witness :
  extract_from_pdf
    {| reader := Some [PageText (Some (py "MAIL: a@b.jp")); PageRaises];
       ocr := None |}
  = extract_from_pdf
      {| reader := Some [PageText (Some (py "MAIL: a@b.jp")); PageRaises];
         ocr := Some [py "MAIL: x"] |}
  ∧ is_Some (extract_from_pdf
               {| reader := Some [PageText (Some (py "MAIL: a@b.jp")); PageRaises];
                  ocr := None |}).
Proof.
  apply (proj1 (proj2 (proj2 pdf_text_layer_and_fallback))).
  vm_compute. reflexivity.
Defined.

(** ** The line pattern of the PDF extractor *)

Lemma run_Star (a : atom) (ps : list piece) (s : str) :
  run (Star a :: ps) s = star a (run ps) s.
Proof. reflexivity. Qed.

Lemma run_One (a : atom) (ps : list piece) (c : N) (s : str) :
  run (One a :: ps) (c :: s) = if accepts a c then run ps s else None.
Proof. reflexivity. Qed.

Lemma run_LazyPlus (a : atom) (ps : list piece) (c : N) (s : str) :
  run (LazyPlus a :: ps) (c :: s)
  = if accepts a c then lazy_more a (run ps) [c] s else None.
Proof. reflexivity. Qed.

Lemma lazy_more_eq (a : atom) (k : str → option matched) (acc s : str) :
  lazy_more a k acc s
  = match k s with
    | Some (caps, rest) => Some (rev acc :: caps, rest)
    | None =>
        match s with
        | [] => None
        | c :: s' => if accepts a c then lazy_more a k (c :: acc) s' else None
        end
    end.
Proof. by destruct s. Qed.

(** A lazy group takes the shortest text after which the rest of the
    pattern matches. *)
Lemma lazy_more_first (a : atom) (k : str → option matched)
    (acc t rest : str) (caps : list str) (r : str) :
  Forall (fun c => accepts a c = true) t →
  (∀ t1 t2, t = t1 ++ t2 → t2 ≠ [] → k (t2 ++ rest) = None) →
  k rest = Some (caps, r) →
  lazy_more a k acc (t ++ rest) = Some ((rev acc ++ t) :: caps, r).
Proof.
  intros Ht. revert acc. induction Ht as [|c t Hc _ IH]; intros acc Hfail Hk.
  - rewrite lazy_more_eq. simpl. by rewrite Hk, app_nil_r.
  - rewrite lazy_more_eq. rewrite (Hfail [] (c :: t)) by done.
    simpl. rewrite Hc, IH; [|by intros t1 t2 ->; apply (Hfail (c :: t1))|done].
    simpl. by rewrite <- app_assoc.
Qed.

Lemma run_lazy_group (a : atom) (ps : list piece) (t rest : str)
    (caps : list str) (r : str) :
  t ≠ [] →
  Forall (fun c => accepts a c = true) t →
  (∀ t1 t2, t = t1 ++ t2 → t1 ≠ [] → t2 ≠ [] → run ps (t2 ++ rest) = None) →
  run ps rest = Some (caps, r) →
  run (LazyPlus a :: ps) (t ++ rest) = Some (t :: caps, r).
Proof.
  intros Hne Ht Hfail Hk. destruct t as [|c t]; [done|].
  inversion Ht as [|? ? Hc Ht']; subst.
  change ((c :: t) ++ rest) with (c :: t ++ rest).
  rewrite run_LazyPlus, Hc.
  rewrite (lazy_more_first a (run ps) [c] t rest caps r); [done|done| |done].
  intros t1 t2 -> Ht2. by apply (Hfail (c :: t1)).
Qed.

Lemma lazy_more_none (a : atom) (k : str → option matched) (acc s : str) :
  (∀ u, u `suffix_of` s → k u = None) → lazy_more a k acc s = None.
Proof.
  revert acc. induction s as [|c s IH]; intros acc H; rewrite lazy_more_eq.
  - by rewrite (H []).
  - rewrite (H (c :: s)) by done. destruct (accepts a c); [|done].
    apply IH. intros u Hu. apply H. by apply suffix_cons_r.
Qed.

(** White space cannot reach behind a character that is none. *)
Lemma spaces_split (t R w u : str) (z : N) :
  last t = Some z → isspace z = false →
  t ++ R = w ++ u → spaces w →
  ∃ k, k ≠ [] ∧ u = k ++ R ∧ t = w ++ k ∧ last k = Some z.
Proof.
  intros [t' ->]%last_Some Hz Heq Hw.
  apply app_eq_inv in Heq as [(k & Hk & ->)|(k & -> & _)].
  - destruct k as [|d k].
    + rewrite app_nil_r in Hk. subst w.
      apply Forall_app in Hw as [_ Hw]. inversion Hw; subst. congruence.
    + exists (d :: k). split_and!; [done|done|done|].
      assert (last (w ++ d :: k) = Some z) as Hl
        by (rewrite <- Hk; apply last_snoc).
      rewrite last_app in Hl.
      destruct (last (d :: k)) as [y|] eqn:E; [done|].
      by apply last_None in E.
  - apply Forall_app in Hw as [Hw _].
    apply Forall_app in Hw as [_ Hw].
    inversion Hw; subst. congruence.
Qed.

Lemma rstrip_nil_spaces (s : str) : rstrip s = [] → spaces s.
Proof.
  induction s as [|c s IH]; simpl; [constructor|].
  destruct (rstrip s) as [|d r]; [|done].
  destruct (isspace c) eqn:Ec; [|done]. intros _.
  constructor; [done|by apply IH].
Qed.

Lemma lstrip_nil_spaces (s : str) : lstrip s = [] → spaces s.
Proof.
  induction s as [|c s IH]; simpl; [constructor|].
  destruct (isspace c) eqn:Ec; [|done]. intros H.
  constructor; [done|by apply IH].
Qed.

Lemma strip_nonblank (s : str) (z : N) :
  z ∈ s → isspace z = false → truthy (strip s) = true.
Proof.
  intros Hz Hs. destruct (strip s) as [|c t] eqn:E; [|done].
  unfold strip in E. apply rstrip_nil_spaces in E.
  assert (lstrip s = []) as El.
  { rewrite <- lstrip_idem, <- (app_nil_r (lstrip s)).
    by rewrite lstrip_spaces_app. }
  apply lstrip_nil_spaces in El.
  eapply Forall_forall in El; [|exact Hz]. congruence.
Qed.

Lemma colon_free_suffix (u s : str) :
  u `suffix_of` s → colon_free s → colon_free u.
Proof.
  intros [k ->] [H1 H2]. split; intros H; [apply H1|apply H2];
    apply elem_of_app; by right.
Qed.

Lemma run_colon_fails (ps : list piece) (u : str) :
  (∀ d u', u = d :: u' → d ≠ 58 ∧ d ≠ FW_COLON) →
  run (One (Cls [58; FW_COLON]) :: ps) u = None.
Proof.
  intros H. destruct u as [|d u']; [done|].
  destruct (H d u' eq_refl) as [H1 H2]. rewrite run_One. simpl.
  destruct (N.eqb_spec d 58); [done|].
  by destruct (N.eqb_spec d FW_COLON).
Qed.

(** X6.  The line pattern.  A line made of a label, a colon of either
    width and a value, with optional white space around each, is split
    at its first colon into the label and the value without that white
    space, and stored under the key the label resolves to when that
    key is canonical.  A line without a colon stores nothing. *)
Theorem pdf_line_parsed :
  (∀ w0 label w1 c w2 value w3,
     spaces w0 → spaces w1 → spaces w2 → spaces w3 →
     c = 58 ∨ c = FW_COLON →
     label ≠ [] → trimmed label → colon_free label → 10 ∉ label →
     value ≠ [] → trimmed value → 10 ∉ value →
     let line := w0 ++ label ++ w1 ++ [c] ++ w2 ++ value ++ w3 in
     match_line line = Some (label, value)
     ∧ ∀ m, pdf_line m line
            = if decide (to_template_key (Some label) ∈ PLACEHOLDER_KEYS)
              then <[to_template_key (Some label) := value]> m
              else m)
  ∧ (∀ line, colon_free line →
       match_line line = None ∧ ∀ m, pdf_line m line = m).
Proof.
  split.
  - intros w0 label w1 c w2 value w3 H0 H1 H2 H3 Hc Hl [Hll Hlr] [Hc1 Hc2]
      Hl10 Hv [Hvl Hvr] Hv10 line.
    apply lstrip_fix in Hll as [?|(la & label' & Hla & Hlas)]; [done|].
    apply rstrip_fix in Hlr as [?|(lz & Hlz & Hlzs)]; [done|].
    apply lstrip_fix in Hvl as [?|(va & value' & Hva & Hvas)]; [done|].
    apply rstrip_fix in Hvr as [?|(vz & Hvz & Hvzs)]; [done|].
    assert (Hany : ∀ t : str, 10 ∉ t → Forall (fun d => accepts Any d = true) t).
    { intros t Ht. apply Forall_forall. intros d Hd. simpl.
      destruct (N.eqb_spec d 10) as [->|]; done. }
    assert (Hcs : isspace c = false) by (destruct Hc as [->| ->]; done).
    assert (Hlast : ∀ (t1 t2 : str) z, last (t1 ++ t2) = Some z → t2 ≠ [] →
                      last t2 = Some z).
    { intros t1 t2 z Hz Ht2. rewrite last_app in Hz.
      destruct (last t2) eqn:E; [done|]. by apply last_None in E. }
    assert (Hrun : run LINE_RE line = Some ([label; value], [])).
    { unfold LINE_RE, line. rewrite run_Star.
      apply star_greedy; [done|by intros d r'; rewrite Hla; intros [= <- _]|].
      apply run_lazy_group; [done|by apply Hany| |].
      { intros t1 t2 -> Ht1 Ht2. rewrite run_Star. apply star_none.
        intros w u Heq Hw.
        destruct (spaces_split t2 _ w u lz (Hlast _ _ _ Hlz Ht2) Hlzs Heq Hw)
          as (k & Hk & -> & -> & _).
        apply run_colon_fails. intros d u' Hd.
        destruct k as [|e k]; [done|]. injection Hd as <- _.
        assert (e ∈ t1 ++ w ++ e :: k) as He.
        { rewrite !elem_of_app, elem_of_cons. auto. }
        split; intros ->; [by apply Hc1|by apply Hc2]. }
      rewrite run_Star.
      apply star_greedy; [done|by intros d r' [= <- _]|].
      change ([c] ++ w2 ++ value ++ w3) with (c :: w2 ++ value ++ w3).
      rewrite run_One.
      replace (accepts (Cls [58; FW_COLON]) c) with true
        by (destruct Hc as [->| ->]; done).
      rewrite run_Star.
      apply star_greedy; [done|by intros d r'; rewrite Hva; intros [= <- _]|].
      apply run_lazy_group; [done|by apply Hany| |].
      { intros t1 t2 -> Ht1 Ht2. rewrite run_Star. apply star_none.
        intros w u Heq Hw.
        destruct (spaces_split t2 _ w u vz (Hlast _ _ _ Hvz Ht2) Hvzs Heq Hw)
          as (k & Hk & -> & -> & Hkz).
        apply last_Some in Hkz as [k' ->].
        destruct k' as [|e [|e' k']]; simpl.
        - destruct w3; simpl; [|done].
          destruct (N.eqb_spec vz 10) as [->|]; done.
        - by destruct w3.
        - done. }
      rewrite run_Star, <- (app_nil_r w3).
      apply star_greedy; [done|done|done]. }
    unfold match_line. rewrite Hrun. split; [done|].
    intros m. unfold pdf_line.
    rewrite (strip_nonblank line la); [| |exact Hlas].
    2:{ unfold line. rewrite Hla. rewrite !elem_of_app, elem_of_cons. auto. }
    unfold match_line. rewrite Hrun. simpl.
    assert (truthy value = true) as -> by by destruct value.
    rewrite andb_true_r, (trimmed_strip value).
    2:{ split; [apply lstrip_fix|apply rstrip_fix]; right; eauto. }
    by case_decide; [rewrite bool_decide_eq_true_2|rewrite bool_decide_eq_false_2].
  - intros line Hfree.
    assert (Hrun : run LINE_RE line = None).
    { unfold LINE_RE. rewrite run_Star. apply star_none. intros w u -> _.
      assert (colon_free u) as Hu
        by (eapply colon_free_suffix; [by eexists|done]).
      destruct u as [|d u]; [done|]. rewrite run_LazyPlus.
      destruct (accepts Any d); [|done].
      apply lazy_more_none. intros u2 Hu2. rewrite run_Star.
      apply star_none. intros w' u3 -> _.
      apply run_colon_fails. intros e u' ->.
      assert (colon_free (e :: u')) as [He1 He2].
      { eapply colon_free_suffix; [|exact Hu].
        apply suffix_cons_r. etrans; [|exact Hu2]. by eexists. }
      split; intros ->; [apply He1|apply He2]; left. }
    assert (Hm : match_line line = None) by (unfold match_line; by rewrite Hrun).
    split; [done|]. intros m. unfold pdf_line. rewrite Hm.
    by destruct (negb _).
Qed.

Lemma pdf_line_parsed_witness :
  match_line (py " MAIL： a@b.jp ") = Some (py "MAIL", py "a@b.jp").
Proof.
  refine (proj1 (proj1 pdf_line_parsed (py " ") (py "MAIL") [] FW_COLON
                   (py " ") (py "a@b.jp") (py " ") _ _ _ _ _ _ _ _ _ _ _ _)).
  - apply (bool_decide_unpack _). vm_compute. exact I.
  - constructor.
  - apply (bool_decide_unpack _). vm_compute. exact I.
  - apply (bool_decide_unpack _). vm_compute. exact I.
  - by right.
  - discriminate.
  - split; vm_compute; reflexivity.
  - split; apply (bool_decide_unpack _); vm_compute; exact I.
  - apply (bool_decide_unpack _). vm_compute. exact I.
  - discriminate.
  - split; vm_compute; reflexivity.
  - apply (bool_decide_unpack _). vm_compute. exact I.
Defined.

(** ** Template filler: normalisation, failure and substitution *)

(** X7.  The normalisation is idempotent, its result holds no
    full-width brace and no zero-width space, and the substitution
    does not tell a text from its normal form: full-width braces are
    read as ASCII braces. *)
Theorem normalisation_transparent :
  (∀ s, _normalize_text (_normalize_text s) = _normalize_text s)
  ∧ (∀ s, Forall (fun c => c ∉ [FW_LBRACE; FW_RBRACE; ZWS]) (_normalize_text s))
  ∧ (∀ raw mapping,
       _replace_text_block (_normalize_text raw) mapping
       = _replace_text_block raw mapping)
  ∧ (∀ a b, _normalize_text (a ++ b) = _normalize_text a ++ _normalize_text b).
Proof.
  assert (Hid : ∀ s, _normalize_text (_normalize_text s) = _normalize_text s).
  { intros s. apply _normalize_text_id, _normalize_text_clean. }
  split_and!; [done|apply _normalize_text_clean| |apply _normalize_text_app].
  intros raw mapping. unfold _replace_text_block. by rewrite Hid.
Qed.

(** X8.  When the filler raises, and when it cannot.  A value that
    ends in its only backslash makes every substitution raise, whether
    or not the text holds a token, and with it the filler, as soon as
    the traversal meets a paragraph that has a run.  A value with a
    control character (other than tab, line feed and carriage return)
    makes the setter of the run raise in a paragraph of pieces and
    tokens that holds a token of its key.  With values that hold no backslash and are XML
    text the filler returns. *)
Theorem filler_raises :
  (∀ raw mapping k v,
     (k, Some (v ++ [92])) ∈ mapping → 92 ∉ v →
     _replace_text_block raw mapping = None)
  ∧ (∀ doc mapping k v i p,
       (k, Some (v ++ [92])) ∈ mapping → 92 ∉ v →
       i ∈ visit_order doc → xml doc !! i = Some p → p ≠ [] →
       fill_docx_placeholders doc mapping = None)
  ∧ (∀ (p : paragraph) mapping segs w1 K w2 v c,
       _normalize_text (joined p) = concat (map seg_raw segs) →
       Forall seg_ok segs →
       Forall plain_key mapping.*1 → literal_values mapping →
       Tok w1 K w2 ∈ segs → assoc K mapping = Some v →
       c ∈ repl_of v → control c = true →
       _replace_in_paragraph p mapping = None)
  ∧ (∀ doc mapping,
       safe_values mapping → is_Some (fill_docx_placeholders doc mapping)).
Proof.
  split_and!.
  - intros raw mapping k v. apply replace_text_block_trailing.
  - intros doc mapping k v i p Hin Hv Hi Hp Hne. rewrite fill_as_visits.
    rewrite (foldl_visit_raises mapping _ (xml doc) i p); try done.
    intros [|r0 rs] Hq; [done|]. unfold _replace_in_paragraph.
    by rewrite (replace_text_block_trailing _ mapping k v).
  - intros p mapping segs w1 K w2 v c Hj Hsegs Hkeys Hlit Hin Hv Hc Hctl.
    assert (Hp : p ≠ []).
    { intros ->. apply list_elem_of_split in Hin as (s1 & s2 & ->).
      rewrite map_app, concat_app in Hj.
      destruct (concat (map seg_raw s1)); discriminate. }
    apply (replace_in_paragraph_raises p mapping
             (concat (map (seg_filled mapping) segs))); [done| |].
    + rewrite (replace_text_block_normal _ _ _ Hj).
      by apply replace_text_block_segments.
    + intros Hx. apply control_not_xml in Hctl.
      rewrite (xml_text_elem c _ Hx) in Hctl; [done|].
      apply (elem_of_concat c (seg_filled mapping (Tok w1 K w2)));
        [simpl; by rewrite Hv|].
      change (@map segment) with (@fmap list _ segment).
      apply list_elem_of_fmap. by exists (Tok w1 K w2).
  - apply fill_is_Some.
Qed.

Lemma filler_raises_witness :
  _replace_in_paragraph [Run_of (py "{{MAIL}}様") 1 eq_refl]
    (complete {[ py "MAIL" := [97; 1; 98] ]}) = None.
Proof.
  apply (proj1 (proj2 (proj2 filler_raises))
           [Run_of (py "{{MAIL}}様") 1 eq_refl]
           (complete {[ py "MAIL" := [97; 1; 98] ]})
           [Tok [] (py "MAIL") []; Plain (py "様")]
           [] (py "MAIL") [] (Some [97; 1; 98]) 1).
  - vm_compute. reflexivity.
  - repeat (apply Forall_cons; split); [..|apply Forall_nil]; simpl;
      repeat split; try discriminate;
      apply (bool_decide_unpack _); vm_compute; exact I.
  - rewrite complete_keys. apply Forall_forall, canonical_plain.
  - apply (bool_decide_unpack _). vm_compute. exact I.
  - left.
  - vm_compute. reflexivity.
  - apply (bool_decide_unpack _). vm_compute. exact I.
  - reflexivity.
Defined.

(** X9.  Substitution in a paragraph.  For a paragraph whose text,
    normalised, is a sequence of tokens of plain keys and of pieces in
    which no two opening braces meet, and a mapping of plain keys to
    values without backslash or opening brace: the substituted text
    has every token of a key of the mapping replaced by the value of
    that key, every other token kept as it is, and the text in between
    kept.  When this text is XML text, the paragraph carries it
    afterwards, as the setter stores it when it differs from the text
    before, and the runs keep their number and formatting. *)
Theorem paragraph_substitution (p : paragraph)
    (mapping : list (str * option str)) (segs : list segment) :
  _normalize_text (joined p) = concat (map seg_raw segs) →
  Forall seg_ok segs →
  Forall plain_key mapping.*1 →
  literal_values mapping →
  let filled := concat (map (seg_filled mapping) segs) in
  _replace_text_block (joined p) mapping = Some filled
  ∧ (xml_text filled →
     ∃ p', _replace_in_paragraph p mapping = Some p'
           ∧ joined p' = written (joined p) filled
           ∧ map rPr p' = map rPr p).
Proof.
  intros Hj Hsegs Hkeys Hlit filled.
  assert (Hb : _replace_text_block (joined p) mapping = Some filled).
  { rewrite (replace_text_block_normal _ _ _ Hj).
    by apply replace_text_block_segments. }
  assert (H0 : p = [] → filled = []).
  { intros ->.
    assert (_replace_text_block (joined []) mapping = Some []) as H0.
    { apply foldl_sub_key_noop.
      - apply literal_valid. eapply Forall_impl; [exact Hlit|]. by intros ? [? _].
      - by apply Forall_forall. }
    rewrite H0 in Hb. by injection Hb as <-. }
  split; [done|].
  intros Hx. destruct p as [|r0 rs].
  - exists []. rewrite (H0 eq_refl). by split_and!.
  - by apply replace_in_paragraph_spec.
Qed.

Lemma paragraph_substitution_witness :
  ∃ p', _replace_in_paragraph
          [Run_of (py "{{候補者氏名") 1 eq_refl;
           Run_of (py "}}様 {{ MAIL }} {{住所}}") 2 eq_refl]
          (complete {[ py "候補者氏名" := py "山田太郎" ]}) = Some p'
        ∧ joined p' = py "山田太郎様  {{住所}}"
        ∧ map rPr p' = [1; 2].
Proof.
  destruct (paragraph_substitution
              [Run_of (py "{{候補者氏名") 1 eq_refl;
               Run_of (py "}}様 {{ MAIL }} {{住所}}") 2 eq_refl]
              (complete {[ py "候補者氏名" := py "山田太郎" ]})
              [Tok [] (py "候補者氏名") []; Plain (py "様 ");
               Tok (py " ") (py "MAIL") (py " "); Plain (py " ");
               Tok [] (py "住所") []]) as (_ & H).
  - vm_compute. reflexivity.
  - repeat (apply Forall_cons; split); [..|apply Forall_nil]; simpl;
      repeat split; try discriminate;
      apply (bool_decide_unpack _); vm_compute; exact I.
  - rewrite complete_keys. apply Forall_forall, canonical_plain.
  - apply (bool_decide_unpack _). vm_compute. exact I.
  - destruct H as (p' & Hp' & Ht & Hf); [vm_compute; reflexivity|].
    exists p'. split_and!; [done| |done]. rewrite Ht. vm_compute. reflexivity.
Defined.

Lemma inert_unchanged (p : paragraph) (mapping : list (str * option str)) :
  valid_values mapping → inert p → _replace_in_paragraph p mapping = Some p.
Proof.
  intros Hv Hp. apply replace_in_paragraph_unchanged; [done| |].
  - apply _normalize_text_id. eapply Forall_impl; [exact Hp|].
    intros c Hc. by apply not_elem_of_cons in Hc as [_ Hc].
  - apply token_free_no_lbrace. intros Hin.
    eapply Forall_forall in Hp; [|exact Hin]. apply Hp. left.
Qed.

(** X10.  A template without placeholders comes back as it is: when no
    paragraph holds a brace of either width or a zero-width space, the
    filler returns the template itself, for every mapping of
    well-formed values. *)
Theorem inert_template_unchanged (doc : document)
    (mapping : list (str * option str)) :
  valid_values mapping → Forall inert (xml doc) →
  fill_docx_placeholders doc mapping = Some doc.
Proof.
  intros Hv Hdoc. rewrite fill_as_visits.
  assert (H : ∀ l, foldl (visit mapping) (Some (xml doc)) l = Some (xml doc)).
  { induction l as [|i l IH]; cbn [foldl]; [done|].
    unfold visit at 2. simpl. destruct (xml doc !! i) as [p|] eqn:E; [|done].
    rewrite inert_unchanged; [|done|].
    - simpl. by rewrite list_insert_id.
    - apply (proj1 (Forall_forall _ _) Hdoc). by eapply list_elem_of_lookup_2. }
  rewrite H. simpl. by destruct doc.
Qed.

Lemma inert_template_unchanged_witness :
  fill_docx_placeholders
    {| xml := [[Run_of (py "連絡先") 3 eq_refl]];
       body := {| paragraphs := [0%nat]; tables := [] |};
       sections := [] |}
    (complete {[ py "MAIL" := py "a@b.jp" ]})
  = Some {| xml := [[Run_of (py "連絡先") 3 eq_refl]];
            body := {| paragraphs := [0%nat]; tables := [] |};
            sections := [] |}.
Proof.
  apply inert_template_unchanged.
  - apply (bool_decide_unpack _). vm_compute. exact I.
  - apply (bool_decide_unpack _). vm_compute. exact I.
Defined.

(** ** The completed mapping and the preview *)

(** X11.  The completed mapping binds a key exactly when it is
    canonical, to the extracted value or else to the empty string; the
    previewed dictionary holds exactly the non-empty extracted
    bindings of canonical keys, in the order of [PLACEHOLDER_KEYS]. *)
Theorem completed_and_preview (extracted : gmap str str) :
  (∀ K, assoc K (complete extracted)
        = if decide (K ∈ PLACEHOLDER_KEYS)
          then Some (Some (default [] (extracted !! K))) else None)
  ∧ (∀ K v, (K, v) ∈ preview_items (complete extracted)
            ↔ K ∈ PLACEHOLDER_KEYS
              ∧ ∃ s, v = Some s ∧ extracted !! K = Some s ∧ s ≠ [])
  ∧ (preview_items (complete extracted)).*1
    = filter (fun K => ¬ blank extracted K) PLACEHOLDER_KEYS.
Proof.
  split_and!.
  - intros K. apply complete_assoc_over.
  - intros K v. unfold preview_items. rewrite list_elem_of_filter.
    unfold complete. change (@map str) with (@fmap list _ str).
    rewrite list_elem_of_fmap. simpl. split.
    + intros [Ht (k & Heq & Hk)]. injection Heq as -> ->. split; [done|].
      destruct (extracted !! k) as [s|]; simpl in *; [|done].
      exists s. split_and!; [done..|]. by intros ->.
    + intros [HK (s & -> & He & Hs)]. split.
      * by destruct s.
      * exists K. rewrite He. done.
  - destruct (report_over extracted PLACEHOLDER_KEYS) as [_ Hf]. exact Hf.
Qed.

(** ** The preview table *)

Lemma esc_app (a b : str) : esc (a ++ b) = esc a ++ esc b.
Proof. unfold esc. by rewrite !replace1_app. Qed.

Lemma esc_char (c : N) :
  esc [c]
  = if c =? 38 then [38; 97; 109; 112; 59]
    else if c =? 60 then [38; 108; 116; 59]
    else if c =? 62 then [38; 103; 116; 59]
    else [c].
Proof.
  destruct (N.eqb_spec c 38) as [->|H1]; [reflexivity|].
  destruct (N.eqb_spec c 60) as [->|H2]; [reflexivity|].
  destruct (N.eqb_spec c 62) as [->|H3]; [reflexivity|].
  unfold esc, replace1. simpl.
  rewrite (proj2 (N.eqb_neq _ _) H1). simpl.
  rewrite (proj2 (N.eqb_neq _ _) H2). simpl.
  by rewrite (proj2 (N.eqb_neq _ _) H3).
Qed.

Lemma esc_cons (c : N) (s : str) : esc (c :: s) = esc [c] ++ esc s.
Proof. apply (esc_app [c] s). Qed.

Lemma count_app (c : N) (a b : str) :
  count c (a ++ b) = (count c a + count c b)%nat.
Proof. unfold count. by rewrite filter_app, length_app. Qed.

Lemma count_esc (s : str) : count 60 (esc s) = O ∧ count 62 (esc s) = O.
Proof.
  induction s as [|c s [IH1 IH2]]; [done|].
  rewrite esc_cons, !count_app, IH1, IH2, esc_char.
  destruct (N.eqb_spec c 38); [done|].
  destruct (N.eqb_spec c 60); [done|].
  destruct (N.eqb_spec c 62); [done|].
  unfold count. rewrite !filter_cons, !decide_False by done. done.
Qed.

Lemma unesc_esc (s : str) : unesc (esc s) = s.
Proof.
  induction s as [|c s IH]; [done|].
  rewrite esc_cons, esc_char.
  destruct (N.eqb_spec c 38) as [->|H1]; [simpl; by rewrite IH|].
  destruct (N.eqb_spec c 60) as [->|H2]; [simpl; by rewrite IH|].
  destruct (N.eqb_spec c 62) as [->|H3]; [simpl; by rewrite IH|].
  simpl. by rewrite (proj2 (N.eqb_neq _ _) H1), IH.
Qed.

(** X12.  The preview cannot be broken by the data: [esc] leaves no
    [<] and no [>] in a key or a value, so the angle brackets of the
    table are those of its own markup, two for the table and six for
    each row; and [esc] loses nothing, the text can be read back. *)
Theorem preview_escaped :
  (∀ s, count 60 (esc s) = O ∧ count 62 (esc s) = O)
  ∧ (∀ s, unesc (esc s) = s)
  ∧ (∀ a b, esc a = esc b → a = b)
  ∧ (∀ a b, esc (a ++ b) = esc a ++ esc b)
  ∧ (∀ data,
       count 60 (safe_preview_table data) = (2 + 6 * length data)%nat
       ∧ count 62 (safe_preview_table data) = (2 + 6 * length data)%nat).
Proof.
  split_and!; [apply count_esc|apply unesc_esc| |apply esc_app|].
  - intros a b H. by rewrite <- (unesc_esc a), H, unesc_esc.
  - intros data. unfold safe_preview_table.
    assert (H : count 60 (concat (map (fun kv : str * option str =>
                  py "<tr><th>" ++ esc kv.1 ++ py "</th><td>"
                  ++ esc (pystr kv.2) ++ py "</td></tr>") data))
                = (6 * length data)%nat
                ∧ count 62 (concat (map (fun kv : str * option str =>
                  py "<tr><th>" ++ esc kv.1 ++ py "</th><td>"
                  ++ esc (pystr kv.2) ++ py "</td></tr>") data))
                  = (6 * length data)%nat).
    { induction data as [|kv data [IH1 IH2]]; [done|].
      cbn [map concat length]. rewrite !count_app, IH1, IH2.
      destruct (count_esc kv.1) as [-> ->].
      destruct (count_esc (pystr kv.2)) as [-> ->].
      change (count 60 (py "<tr><th>")) with 2%nat.
      change (count 60 (py "</th><td>")) with 2%nat.
      change (count 60 (py "</td></tr>")) with 2%nat.
      change (count 62 (py "<tr><th>")) with 2%nat.
      change (count 62 (py "</th><td>")) with 2%nat.
      change (count 62 (py "</td></tr>")) with 2%nat.
      lia. }
    destruct H as [H1 H2]. rewrite !count_app, H1, H2.
    change (count 60 (py "<table border='1'>")) with 1%nat.
    change (count 60 (py "</table>")) with 1%nat.
    change (count 62 (py "<table border='1'>")) with 1%nat.
    change (count 62 (py "</table>")) with 1%nat.
    lia.
Qed.

(** ** When [process] completes *)

(** X13.  When the extraction returns, the template is there and no
    extracted value holds a backslash or a character that is no XML
    character, [process] completes: the template is filled with the
    mapping completed over the canonical keys, the filled document has
    the shape of the template, and the report is that of the completed
    mapping. *)
Theorem process_completes (suffix : str) (f : upload) (tpl : document)
    (extracted : gmap str str) :
  extract suffix f = Some extracted →
  map_Forall (fun _ v => (92 ∉ v) ∧ xml_text v) extracted →
  ∃ out, fill_docx_placeholders tpl (complete extracted) = Some out
         ∧ process suffix f (Some tpl)
           = Done (complete extracted) out (make_report (complete extracted))
         ∧ body out = body tpl ∧ sections out = sections tpl
         ∧ same_shape (xml tpl) (xml out).
Proof.
  intros He Hvals.
  assert (Hsafe : safe_values (complete extracted)).
  { apply Forall_forall. intros kv [k [-> _]]%list_elem_of_fmap. simpl.
    destruct (extracted !! k) as [v|] eqn:E; simpl.
    - by apply (Hvals k v).
    - split; [apply not_elem_of_nil|done]. }
  destruct (fill_is_Some tpl (complete extracted) Hsafe) as [out Ho].
  exists out. split; [done|]. split; [unfold process; by rewrite He, Ho|].
  rewrite fill_as_visits in Ho.
  destruct (foldl (visit (complete extracted)) (Some (xml tpl)) (visit_order tpl))
    as [x|] eqn:Ex; [|done].
  injection Ho as <-. simpl. split_and!; [done..|].
  by apply (foldl_visit_shape (complete extracted) (visit_order tpl)).
Qed.

Lemma process_completes_witness :
  ∃ out, process (py ".xlsx")
           {| workbook := Some [[[CStr (py "候補者氏名"); CStr (py "山田太郎")]]];
              pdf := {| reader := None; ocr := None |} |}
           (Some sample_template)
         = Done (complete {[ py "候補者氏名" := py "山田太郎" ]}) out
             (make_report (complete {[ py "候補者氏名" := py "山田太郎" ]})).
Proof.
  destruct (process_completes (py ".xlsx")
              {| workbook := Some [[[CStr (py "候補者氏名"); CStr (py "山田太郎")]]];
                 pdf := {| reader := None; ocr := None |} |}
              sample_template {[ py "候補者氏名" := py "山田太郎" ]})
    as (out & _ & Hout & _).
  - vm_compute. reflexivity.
  - apply (bool_decide_unpack _). vm_compute. exact I.
  - by exists out.
Defined.

Lemma preview_escaped_witness : py "<b>&" = py "<b>&".
Proof.
  apply (proj1 (proj2 (proj2 preview_escaped)) (py "<b>&") (py "<b>&")).
  reflexivity.
Defined.

Lemma extractors_values_trimmed_witness : trimmed (py "a@b.jp").
Proof.
  apply (proj1 extractors_values_trimmed
           [[[CStr (py "MAIL"); CStr (py "  a@b.jp ")]]]
           {[ py "MAIL" := py "a@b.jp" ]} (py "MAIL") (py "a@b.jp")).
  - vm_compute. reflexivity.
  - vm_compute. reflexivity.
Defined.
